(** * An LRU cache over a doubly linked list and a hash map (lru.go)

    The Go program keeps its entries in heap-allocated [Node]s chained by
    [Pre]/[Next] pointers, with [head] the most recently used node and [tail]
    the next one to evict, and indexes them by key in [nodeMap].  The
    embedding keeps that shape: nodes live in a store indexed by locations,
    pointers are optional locations ([None] is Go's [nil]), and every method
    is a state transformer that may fail (a failure is a Go panic on a nil
    dereference).  The mutex only serialises calls and is not modelled. *)

From stdpp Require Import gmap list strings.
From Stdlib Require Import ZArith.

Local Open Scope Z_scope.

(** ** Dynamic values

    Keys and values have type [interface{}].  The model covers the nil
    interface and the dynamic types whose equality is reflexive and that the
    runtime can hash: integers (as the driver uses), booleans and strings. *)

Inductive any : Type :=
  | ANil
  | AInt (z : Z)
  | ABool (b : bool)
  | AStr (s : string).

#[global] Instance any_eq_dec : EqDecision any.
Proof. solve_decision. Defined.

Definition any_to_sum (x : any) : (unit + Z) + (bool + string) :=
  match x with
  | ANil => inl (inl tt)
  | AInt z => inl (inr z)
  | ABool b => inr (inl b)
  | AStr s => inr (inr s)
  end.

Definition any_of_sum (x : (unit + Z) + (bool + string)) : any :=
  match x with
  | inl (inl _) => ANil
  | inl (inr z) => AInt z
  | inr (inl b) => ABool b
  | inr (inr s) => AStr s
  end.

#[global] Instance any_countable : Countable any.
Proof.
  apply (inj_countable' any_to_sum any_of_sum).
  by intros [].
Defined.

(** ** Nodes, the cache object and the store *)

Abbreviation loc := positive.

(** A [*Node]: [None] is [nil]. *)
Abbreviation ptr := (option loc).

Record Node : Type := mkNode {
  Key : any;
  Value : any;
  Pre : ptr;
  Next : ptr
}.

Record LRUCache : Type := mkLRUCache {
  cap : Z;
  head : ptr;
  tail : ptr;
  nodeMap : gmap any ptr
}.

(** The nodes allocated so far, and the receiver [this]. *)
Record mem : Type := mkMem {
  heap : gmap loc Node;
  this : LRUCache
}.

Definition set_Value (v : any) (n : Node) : Node := mkNode (Key n) v (Pre n) (Next n).
Definition set_Pre (p : ptr) (n : Node) : Node := mkNode (Key n) (Value n) p (Next n).
Definition set_Next (p : ptr) (n : Node) : Node := mkNode (Key n) (Value n) (Pre n) p.

Definition set_head (p : ptr) (c : LRUCache) : LRUCache :=
  mkLRUCache (cap c) p (tail c) (nodeMap c).
Definition set_tail (p : ptr) (c : LRUCache) : LRUCache :=
  mkLRUCache (cap c) (head c) p (nodeMap c).
Definition map_store (k : any) (p : ptr) (c : LRUCache) : LRUCache :=
  mkLRUCache (cap c) (head c) (tail c) (<[k:=p]> (nodeMap c)).
Definition map_remove (k : any) (c : LRUCache) : LRUCache :=
  mkLRUCache (cap c) (head c) (tail c) (delete k (nodeMap c)).

(** ** Commands: a state monad with failure *)

Definition M (A : Type) : Type := mem → option (A * mem).

#[global] Instance M_ret : MRet M := λ A x m, Some (x, m).
#[global] Instance M_bind : MBind M := λ A B f c m,
  match c m with
  | Some (x, m') => f x m'
  | None => None
  end.

(** Reading through a pointer; a nil pointer panics. *)
Definition deref (p : ptr) : M Node := λ m,
  match p with
  | Some a => match heap m !! a with Some n => Some (n, m) | None => None end
  | None => None
  end.

(** Writing a field through a pointer. *)
Definition store (p : ptr) (f : Node → Node) : M unit := λ m,
  match p with
  | Some a =>
      match heap m !! a with
      | Some n => Some (tt, mkMem (<[a:=f n]> (heap m)) (this m))
      | None => None
      end
  | None => None
  end.

Definition alloc (n : Node) : M ptr := λ m,
  let a := fresh (dom (heap m)) in
  Some (Some a, mkMem (<[a:=n]> (heap m)) (this m)).

Definition getThis : M LRUCache := λ m, Some (this m, m).

Definition setThis (f : LRUCache → LRUCache) : M unit := λ m,
  Some (tt, mkMem (heap m) (f (this m))).

(** ** The program *)

(** [NewNode]: a fresh node with nil links. *)
Definition NewNode (key value : any) : M ptr :=
  alloc (mkNode key value None None).

(** [NewLRUCache]: the capacity is stored as given.  It is only ever
    compared with [len(this.nodeMap)], so the width of Go's [int] plays no
    part and [cap] is an integer. *)
Definition NewLRUCache (cap : Z) : LRUCache :=
  mkLRUCache cap None None ∅.

(** [addFirst]: only [Pre] is reset; [Next] is written when the list is
    not empty. *)
Definition addFirst (node : ptr) : M unit :=
  store node (set_Pre None);;
  c ← getThis;
  match head c with
  | None =>
      setThis (set_head node);;
      setThis (set_tail node)
  | Some _ =>
      store node (set_Next (head c));;
      store (head c) (set_Pre node);;
      setThis (set_head node)
  end;;
  n ← deref node;
  setThis (map_store (Key n) node).

(** [remove]: the neighbours are reconnected; the node's own links are
    left as they were. *)
Definition remove (node : ptr) : M unit :=
  n ← deref node;
  let pre := Pre n in
  let next := Next n in
  match pre with
  | Some _ => store pre (set_Next next)
  | None => setThis (set_head next)
  end;;
  match next with
  | Some _ => store next (set_Pre pre)
  | None => setThis (set_tail pre)
  end;;
  n' ← deref node;
  setThis (map_remove (Key n')).

Definition removeLast : M unit :=
  c ← getThis;
  match tail c with
  | None => mret tt
  | Some _ =>
      t ← deref (tail c);
      setThis (map_remove (Key t));;
      let pre := Pre t in
      match pre with
      | None =>
          setThis (set_tail None);;
          setThis (set_head None)
      | Some _ =>
          store pre (set_Next None);;
          setThis (set_tail pre)
      end
  end.

(** [Get]: nil on a miss, the node's value on a hit. *)
Definition Get (key : any) : M any :=
  c ← getThis;
  match nodeMap c !! key with
  | None => mret ANil
  | Some node =>
      remove node;;
      addFirst node;;
      n ← deref node;
      mret (Value n)
  end.

Definition Put (key value : any) : M unit :=
  c ← getThis;
  match nodeMap c !! key with
  | None =>
      (if decide (cap c ≤ Z.of_nat (size (nodeMap c)))
       then removeLast else mret tt);;
      node ← NewNode key value;
      addFirst node
  | Some node =>
      store node (set_Value value);;
      remove node;;
      addFirst node
  end.

(** The driver's reading of a result ([main], the [res == nil] test): a
    nil result is reported as a miss. *)
Definition is_miss (res : any) : bool :=
  match res with ANil => true | _ => false end.


(** ** Running a script of calls *)

Inductive op : Type :=
  | OGet (key : any)
  | OPut (key value : any).

Definition op_key (o : op) : any :=
  match o with OGet k => k | OPut k _ => k end.

(** One call; a [Put] has no result. *)
Definition call (o : op) : M (option any) :=
  match o with
  | OGet k => r ← Get k; mret (Some r)
  | OPut k v => Put k v;; mret None
  end.

Fixpoint run (os : list op) : M (list (option any)) :=
  match os with
  | [] => mret []
  | o :: os' => r ← call o; rs ← run os'; mret (r :: rs)
  end.

(** A cache just built: no node allocated yet. *)
Definition init (c : Z) : mem := mkMem ∅ (NewLRUCache c).

Definition exec (os : list op) (m : mem) : option mem :=
  snd <$> run os m.

Definition results (os : list op) (m : mem) : option (list (option any)) :=
  fst <$> run os m.

(** The cache after a script run from construction (the script never
    fails, see [exec_total]). *)
Definition after (c : Z) (os : list op) : mem :=
  default (init c) (exec os (init c)).

(** The number of stored keys, [len(this.nodeMap)]. *)
Definition len (m : mem) : nat := size (nodeMap (this m)).

Definition stored (m : mem) : gset any := dom (nodeMap (this m)).

(** ** The representation invariant

    The recency list is described by the sequence of its locations, from
    [head] to [tail].  [seg h prev l nxt] says that the nodes of [l] are
    chained in [h], the first one pointing back to [prev] and the last one
    forward to [nxt]. *)

Definition hd_or (l : list loc) (d : ptr) : ptr :=
  match l with
  | [] => d
  | a :: _ => Some a
  end.

Definition last_or (l : list loc) (d : ptr) : ptr :=
  match last l with
  | Some a => Some a
  | None => d
  end.

Fixpoint seg (h : gmap loc Node) (prev : ptr) (l : list loc) (nxt : ptr) : Prop :=
  match l with
  | [] => True
  | a :: l' =>
      ∃ n, h !! a = Some n ∧ Pre n = prev ∧ Next n = hd_or l' nxt
           ∧ seg h (Some a) l' nxt
  end.

(** What a node stores, apart from its links. *)
Definition data (n : Node) : any * any := (Key n, Value n).

Definition payload (h : gmap loc Node) : gmap loc (any * any) := data <$> h.

Definition key_at (pl : gmap loc (any * any)) (a : loc) : any :=
  from_option fst ANil (pl !! a).

Definition keys (pl : gmap loc (any * any)) (l : list loc) : list any :=
  key_at pl <$> l.

Record wf (m : mem) (l : list loc) : Prop := mkWf {
  wf_seg : seg (heap m) None l None;
  wf_head : head (this m) = hd_or l None;
  wf_tail : tail (this m) = last_or l None;
  wf_keys : NoDup (keys (payload (heap m)) l);
  wf_map : ∀ k p, nodeMap (this m) !! k = Some p ↔
             ∃ a, a ∈ l ∧ p = Some a ∧ key_at (payload (heap m)) a = k
}.

(** The recency order as a list of keys, most recent first. *)
Definition order (m : mem) (l : list loc) : list any :=
  keys (payload (heap m)) l.

(** The value stored under a key, if any. *)
Definition value_of (m : mem) (k : any) : option any :=
  match nodeMap (this m) !! k with
  | Some (Some a) => Value <$> heap m !! a
  | _ => None
  end.

(** ** Recency, read off the script of calls

    [last_touch os k] is the position in [os] of the last call, [Get] or
    [Put], made on key [k]. *)

Fixpoint last_touch (os : list op) (k : any) : option nat :=
  match os with
  | [] => None
  | o :: os' =>
      match last_touch os' k with
      | Some t => Some (S t)
      | None => if decide (op_key o = k) then Some 0%nat else None
      end
  end.

(** A time stamp: zero for a key never touched. *)
Definition stamp (os : list op) (k : any) : nat :=
  from_option S 0%nat (last_touch os k).

(** Keys listed from the most to the least recently touched. *)
Fixpoint ordered (os : list op) (ks : list any) : Prop :=
  match ks with
  | [] => True
  | k :: ks' =>
      (0 < stamp os k)%nat
      ∧ Forall (λ k', (stamp os k' < stamp os k)%nat) ks'
      ∧ ordered os ks'
  end.

(** What holds of the cache after the calls [os]: the list is well formed,
    the capacity is the one given at construction, and the list is in
    recency order.  A capacity below one behaves as one. *)
Record inv (c : Z) (os : list op) (m : mem) (l : list loc) : Prop := mkInv {
  inv_wf : wf m l;
  inv_cap : cap (this m) = c;
  inv_len : Z.of_nat (length l) ≤ Z.max 1 c;
  inv_ord : ordered os (order m l)
}.

(** ** Walking the list

    Following [Next] from a pointer, and [Pre] from a pointer, for at most
    [fuel] steps; a pointer to a node that was never allocated ends the
    walk. *)

Fixpoint walk_next (h : gmap loc Node) (fuel : nat) (p : ptr) : list loc :=
  match fuel, p with
  | S f, Some a => a :: walk_next h f (h !! a ≫= Next)
  | _, _ => []
  end.


(** The key and value of the nodes of a list, in order. *)
Definition entry_at (pl : gmap loc (any * any)) (a : loc) : any * any :=
  default (ANil, ANil) (pl !! a).

Definition entries (pl : gmap loc (any * any)) (l : list loc) : list (any * any) :=
  entry_at pl <$> l.

(** ** The driver

    The loop of [main] over its rows: a row of one number is a [Get], any
    other row a [Put] of its first two numbers, so that an empty row panics
    on [input[0]].  A line records the arguments handed to [Printf] and
    whether ["miss!"] is printed. *)

Inductive line : Type :=
  | LGet (key : Z) (res : any) (miss : bool)
  | LPut (key value : Z).

Definition driver_step (input : list Z) : M line :=
  match input with
  | [k] => res ← Get (AInt k); mret (LGet k res (is_miss res))
  | k :: v :: _ => Put (AInt k) (AInt v);; mret (LPut k v)
  | [] => λ _, None
  end.

Fixpoint driver (inputs : list (list Z)) : M (list line) :=
  match inputs with
  | [] => mret []
  | input :: inputs' =>
      ln ← driver_step input; lns ← driver inputs'; mret (ln :: lns)
  end.

(** The rows of [main]. *)
Definition inputs : list (list Z) :=
  [[10; 13]; [3; 17]; [6; 11]; [10; 5]; [9; 10];
   [13]; [2; 19]; [2]; [3]; [5; 25];
   [8]; [9; 22]; [5; 5]; [1; 30]; [11];
   [9; 12]; [7]; [5]; [8]; [9];
   [4; 30]; [9; 3]; [9]; [10]; [10];
   [6; 14]; [3; 1]; [3]; [10; 11]; [8];
   [2; 14]; [1]; [5]; [4]; [11; 4];
   [12; 24]; [5; 18]; [13]; [7; 23]; [8];
   [12]; [3; 27]; [2; 12]; [5]; [2; 9];
   [13; 4]; [8; 18]; [1; 7]; [11; 7]; [5; 2]].

(** [main]: the rows run on a cache of capacity 10. *)
Definition main : option (list line) := fst <$> driver inputs (init 10).

(** The call a well-shaped row stands for. *)
Definition row_op (input : list Z) : option op :=
  match input with
  | [k] => Some (OGet (AInt k))
  | k :: v :: _ => Some (OPut (AInt k) (AInt v))
  | [] => None
  end.

(** ** A reference: the cache as a plain list

    The pairs of key and value, most recently used first.  A hit moves
    the pair to the front; a [Put] of a new key drops the last pair first
    when the list already holds [c] pairs or more. *)

Fixpoint assoc (k : any) (s : list (any * any)) : option any :=
  match s with
  | [] => None
  | (k', v) :: s' => if decide (k' = k) then Some v else assoc k s'
  end.

Definition without (k : any) (s : list (any * any)) : list (any * any) :=
  filter (λ e, e.1 ≠ k) s.

Definition list_Get (k : any) (s : list (any * any)) : any * list (any * any) :=
  match assoc k s with
  | Some v => (v, (k, v) :: without k s)
  | None => (ANil, s)
  end.

Definition list_Put (c : Z) (k v : any) (s : list (any * any)) : list (any * any) :=
  match assoc k s with
  | Some _ => (k, v) :: without k s
  | None =>
      (k, v) :: (if decide (c ≤ Z.of_nat (length s)) then removelast s else s)
  end.

Definition list_call (c : Z) (o : op) (s : list (any * any))
  : option any * list (any * any) :=
  match o with
  | OGet k => let '(r, s') := list_Get k s in (Some r, s')
  | OPut k v => (None, list_Put c k v s)
  end.

Fixpoint list_run (c : Z) (os : list op) (s : list (any * any))
  : list (option any) * list (any * any) :=
  match os with
  | [] => ([], s)
  | o :: os' =>
      let '(r, s') := list_call c o s in
      let '(rs, s'') := list_run c os' s' in
      (r :: rs, s'')
  end.

(** The pointer structure [m] holds the list [s]. *)
Definition holds (c : Z) (m : mem) (s : list (any * any)) : Prop :=
  ∃ l, wf m l ∧ cap (this m) = c ∧ entries (payload (heap m)) l = s.


(** Unfolding the commands of the monad. *)
Ltac mrun :=
  unfold mbind, M_bind, mret, M_ret, deref, store, getThis, setThis; simpl.

(** ** The end-to-end scenario, capacity 2 *)

Example scenario_results :
  results [OPut (AInt 1) (AInt 1); OPut (AInt 2) (AInt 2); OGet (AInt 1);
           OPut (AInt 3) (AInt 3); OGet (AInt 2); OPut (AInt 4) (AInt 4);
           OGet (AInt 1); OGet (AInt 3); OGet (AInt 4)] (init 2)
  = Some [None; None; Some (AInt 1); None; Some ANil; None;
          Some ANil; Some (AInt 3); Some (AInt 4)].
Proof. vm_compute. reflexivity. Qed.

(** ** Lemmas on list segments *)

Lemma hd_or_app l1 l2 d : hd_or (l1 ++ l2) d = hd_or l1 (hd_or l2 d).
Proof. by destruct l1. Qed.

Lemma last_or_cons a l d : last_or (a :: l) d = last_or l (Some a).
Proof.
  unfold last_or. destruct l as [|b l]; [done|].
  rewrite last_cons_cons.
  destruct (last_is_Some (b :: l)) as [_ [x ->]]; done.
Qed.

Lemma last_or_snoc l a d : last_or (l ++ [a]) d = Some a.
Proof. unfold last_or. by rewrite last_snoc. Qed.

Lemma last_or_app l1 l2 d : last_or (l1 ++ l2) d = last_or l2 (last_or l1 d).
Proof.
  revert d. induction l1 as [|a l1 IH]; intros d; [done|].
  simpl. by rewrite !last_or_cons, IH.
Qed.

Lemma list_nil_or_snoc {A} (l : list A) : l = [] ∨ ∃ l' x, l = l' ++ [x].
Proof. destruct l using rev_ind; eauto. Qed.

Lemma seg_app h prev l1 l2 nxt :
  seg h prev (l1 ++ l2) nxt ↔
  seg h prev l1 (hd_or l2 nxt) ∧ seg h (last_or l1 prev) l2 nxt.
Proof.
  revert prev. induction l1 as [|a l1 IH]; intros prev; simpl.
  - naive_solver.
  - rewrite last_or_cons, hd_or_app. split.
    + intros (n & ? & ? & ? & Hs). apply IH in Hs. naive_solver.
    + intros [(n & ? & ? & ? & Hs) ?]. exists n. rewrite IH. naive_solver.
Qed.

(** A segment only reads the nodes it names. *)
Lemma seg_ext h h' prev l nxt :
  (∀ a, a ∈ l → h' !! a = h !! a) →
  seg h prev l nxt → seg h' prev l nxt.
Proof.
  revert prev. induction l as [|a l IH]; intros prev Hag; simpl; [done|].
  intros (n & Hn & ? & ? & Hs). exists n. split_and!; try done.
  - rewrite Hag; [done|]. left.
  - apply IH; [|done]. intros b Hb. apply Hag. by right.
Qed.

Lemma seg_insert_notin h b nb prev l nxt :
  b ∉ l → seg h prev l nxt → seg (<[b:=nb]> h) prev l nxt.
Proof.
  intros Hb. apply seg_ext. intros a Ha.
  rewrite lookup_insert_ne; [done|]. by intros ->.
Qed.

Lemma seg_elem_is_Some h prev l nxt a :
  seg h prev l nxt → a ∈ l → is_Some (h !! a).
Proof.
  revert prev. induction l as [|b l IH]; intros prev; simpl.
  - by intros _ ?%elem_of_nil.
  - intros (n & Hn & _ & _ & Hs) [->|Ha]%elem_of_cons; eauto.
Qed.

(** Redirecting the forward link of the last node of a segment. *)
Lemma seg_set_next h prev l p n nxt nxt' :
  p ∉ l → h !! p = Some n →
  seg h prev (l ++ [p]) nxt →
  seg (<[p:=set_Next nxt' n]> h) prev (l ++ [p]) nxt'.
Proof.
  intros Hp Hn [H1 H2]%seg_app. apply seg_app. split.
  - by apply seg_insert_notin.
  - simpl in *. destruct H2 as (n' & Hn' & ? & ? & _).
    assert (n' = n) as -> by congruence.
    exists (set_Next nxt' n). by rewrite lookup_insert_eq.
Qed.

(** Redirecting the backward link of the first node of a segment. *)
Lemma seg_set_pre h prev prev' x l n nxt :
  x ∉ l → h !! x = Some n →
  seg h prev (x :: l) nxt →
  seg (<[x:=set_Pre prev' n]> h) prev' (x :: l) nxt.
Proof.
  intros Hx Hn (n' & Hn' & ? & ? & Hs). simpl.
  assert (n' = n) as -> by congruence.
  exists (set_Pre prev' n). rewrite lookup_insert_eq.
  split_and!; try done. by apply seg_insert_notin.
Qed.

(** The first node of the whole list has no predecessor, the last one no
    successor. *)
Lemma seg_middle h l1 a l2 :
  seg h None (l1 ++ a :: l2) None →
  ∃ n, h !! a = Some n ∧ Pre n = last_or l1 None ∧ Next n = hd_or l2 None.
Proof. intros [_ (n & ? & ? & ? & _)]%seg_app. eauto. Qed.

(** ** Lemmas on payloads and keys *)

Lemma payload_insert_same h a n n' :
  h !! a = Some n → data n' = data n → payload (<[a:=n']> h) = payload h.
Proof.
  intros Hn Hd. unfold payload. rewrite fmap_insert, Hd.
  apply insert_id. by rewrite lookup_fmap, Hn.
Qed.

Lemma key_at_lookup h a n : h !! a = Some n → key_at (payload h) a = Key n.
Proof. intros Hn. unfold key_at, payload. by rewrite lookup_fmap, Hn. Qed.

Lemma keys_app pl l1 l2 : keys pl (l1 ++ l2) = keys pl l1 ++ keys pl l2.
Proof. apply fmap_app. Qed.

Lemma keys_NoDup_locs pl l : NoDup (keys pl l) → NoDup l.
Proof. apply NoDup_fmap_1. Qed.

Lemma keys_elem pl l a : a ∈ l → key_at pl a ∈ keys pl l.
Proof. intros. by apply list_elem_of_fmap_2. Qed.

Lemma keys_insert_notin h a n l :
  a ∉ l → keys (payload (<[a:=n]> h)) l = keys (payload h) l.
Proof.
  intros Ha. apply list_fmap_ext. intros i b Hb.
  unfold key_at, payload. rewrite !lookup_fmap, lookup_insert_ne; [done|].
  intros ->. apply Ha. by eapply list_elem_of_lookup_2.
Qed.

(** ** Specifications of the list primitives *)


Lemma keys_NoDup_middle pl l1 a l2 :
  NoDup (keys pl (l1 ++ a :: l2)) →
  (key_at pl a ∉ keys pl (l1 ++ l2)) ∧ NoDup (keys pl (l1 ++ l2)).
Proof.
  unfold keys. rewrite !fmap_app, fmap_cons.
  rewrite <-Permutation_middle. apply NoDup_cons.
Qed.

Lemma locs_NoDup_middle pl l1 a l2 :
  NoDup (keys pl (l1 ++ a :: l2)) → a ∉ l1 ++ l2.
Proof.
  intros H%keys_NoDup_locs. rewrite <-Permutation_middle in H.
  by apply NoDup_cons in H as [? _].
Qed.

Lemma index_delete (mp : gmap any ptr) pl l1 a l2 :
  NoDup (keys pl (l1 ++ a :: l2)) →
  (∀ k p, mp !! k = Some p ↔
     ∃ b, b ∈ l1 ++ a :: l2 ∧ p = Some b ∧ key_at pl b = k) →
  ∀ k p, delete (key_at pl a) mp !! k = Some p ↔
     ∃ b, b ∈ l1 ++ l2 ∧ p = Some b ∧ key_at pl b = k.
Proof.
  intros Hnd Hm k p. destruct (keys_NoDup_middle _ _ _ _ Hnd) as [Hni _].
  rewrite lookup_delete_Some, Hm. split.
  - intros [Hne (b & Hb & -> & <-)]. exists b. split_and!; try done.
    rewrite elem_of_app, elem_of_cons in Hb. rewrite elem_of_app.
    destruct Hb as [?|[->|?]]; auto. done.
  - intros (b & Hb & -> & <-). split.
    + intros Heq. apply Hni. rewrite Heq. by apply keys_elem.
    + exists b. split_and!; try done.
      rewrite elem_of_app, elem_of_cons. rewrite elem_of_app in Hb. tauto.
Qed.

Lemma remove_spec m l1 a l2 :
  wf m (l1 ++ a :: l2) →
  ∃ m', remove (Some a) m = Some (tt, m') ∧ wf m' (l1 ++ l2)
    ∧ payload (heap m') = payload (heap m)
    ∧ heap m' !! a = heap m !! a
    ∧ cap (this m') = cap (this m)
    ∧ nodeMap (this m') = delete (key_at (payload (heap m)) a) (nodeMap (this m)).
Proof.
  intros [Hseg Hhd Htl Hk Hm].
  destruct (seg_middle _ _ _ _ Hseg) as (n & Hn & Hpre & Hnext).
  pose proof (index_delete _ _ _ _ _ Hk Hm) as Hm'.
  destruct (keys_NoDup_middle _ _ _ _ Hk) as [_ Hk'].
  pose proof (keys_NoDup_locs _ _ Hk) as Hnd.
  apply seg_app in Hseg as [Hs1 Hs2]. simpl in Hs2.
  destruct Hs2 as (na & _ & _ & _ & Hs2).
  rewrite (key_at_lookup _ _ _ Hn) in *.
  destruct m as [h [c hd tl mp]]; simpl in *.
  destruct (list_nil_or_snoc l1) as [->|(l1' & p & ->)]; destruct l2 as [|x l2];
    rewrite ?last_or_snoc in Hpre; cbn in Hpre, Hnext.
  - unfold remove. mrun. rewrite Hn. simpl. rewrite Hpre, Hnext. simpl.
    rewrite Hn. simpl. eexists; split; [done|]. split_and!; try done.
  - assert ((x ∉ l2) ∧ a ≠ x) as [Hx Hax].
    { simpl in Hnd. rewrite !NoDup_cons in Hnd. set_solver. }
    pose proof Hs2 as (nx & Hnx & _).
    unfold remove. mrun. rewrite Hn. simpl. rewrite Hpre, Hnext. simpl.
    rewrite Hnx. simpl. rewrite lookup_insert_ne by done. rewrite Hn. simpl.
    eexists; split; [done|]. 
    assert (payload (<[x:=set_Pre None nx]> h) = payload h) as Hpl
      by by apply (payload_insert_same _ _ nx).
    split_and!; try done; [|by cbn; rewrite lookup_insert_ne].
    split; cbn [heap this head tail nodeMap set_head map_remove];
      rewrite ?Hpl; try done.
    by apply (seg_set_pre _ (Some a)).
  - rewrite app_nil_r in *.
    assert ((p ∉ l1') ∧ a ≠ p) as [Hp Hap].
    { rewrite <-app_assoc in Hnd. simpl in Hnd.
      rewrite NoDup_app, !NoDup_cons in Hnd. set_solver. }
    destruct (seg_elem_is_Some _ _ _ _ p Hs1) as [np Hnp]; [set_solver|].
    unfold remove. mrun. rewrite Hn. simpl. rewrite Hpre, Hnext. simpl.
    rewrite Hnp. simpl. rewrite lookup_insert_ne by done. rewrite Hn. simpl.
    eexists; split; [done|].
    assert (payload (<[p:=set_Next None np]> h) = payload h) as Hpl
      by by apply (payload_insert_same _ _ np).
    split_and!; try done; [|by cbn; rewrite lookup_insert_ne].
    split; cbn [heap this head tail nodeMap set_head set_tail map_remove];
      rewrite ?Hpl; try done.
    + by apply (seg_set_next _ _ _ _ _ (Some a)).
    + rewrite Hhd. by rewrite !hd_or_app.
    + by rewrite last_or_snoc.
  - assert ((p ∉ l1') ∧ (x ∉ l2) ∧ a ≠ p ∧ a ≠ x ∧ p ≠ x ∧ (x ∉ l1') ∧ (p ∉ l2))
      as (Hp & Hx & Hap & Hax & Hpx & Hxl & Hpl2).
    { rewrite <-app_assoc in Hnd. simpl in Hnd.
      rewrite NoDup_app, !NoDup_cons in Hnd. set_solver. }
    destruct (seg_elem_is_Some _ _ _ _ p Hs1) as [np Hnp]; [set_solver|].
    pose proof Hs2 as (nx & Hnx & _).
    unfold remove. mrun. rewrite Hn. simpl. rewrite Hpre, Hnext. simpl.
    rewrite Hnp. simpl. rewrite lookup_insert_ne by done. rewrite Hnx. simpl.
    rewrite !lookup_insert_ne by done. rewrite Hn. simpl.
    eexists; split; [done|].
    assert (payload (<[x:=set_Pre (Some p) nx]> (<[p:=set_Next (Some x) np]> h))
            = payload h) as Hpl.
    { rewrite (payload_insert_same _ _ nx); [|by rewrite lookup_insert_ne|done].
      by apply (payload_insert_same _ _ np). }
    split_and!; try done; [|by cbn; rewrite !lookup_insert_ne].
    split; cbn [heap this head tail nodeMap set_head set_tail map_remove];
      rewrite ?Hpl; try done.
    + apply seg_app. split.
      * apply seg_insert_notin; [set_solver|].
        by apply (seg_set_next _ _ _ _ _ (Some a)).
      * rewrite last_or_snoc. apply (seg_set_pre _ (Some a)); [done| |].
        -- by rewrite lookup_insert_ne.
        -- apply seg_insert_notin; [set_solver|done].
    + rewrite Hhd. by rewrite !hd_or_app.
    + rewrite Htl. by rewrite !last_or_app, !last_or_cons.
Qed.

Lemma key_at_insert_ne h a n b :
  a ≠ b → key_at (payload (<[a:=n]> h)) b = key_at (payload h) b.
Proof.
  intros Hne. unfold key_at, payload. by rewrite !lookup_fmap, lookup_insert_ne.
Qed.

Lemma index_insert (mp : gmap any ptr) pl l a :
  (key_at pl a ∉ keys pl l) →
  (∀ k p, mp !! k = Some p ↔ ∃ b, b ∈ l ∧ p = Some b ∧ key_at pl b = k) →
  ∀ k p, <[key_at pl a:=Some a]> mp !! k = Some p ↔
     ∃ b, b ∈ a :: l ∧ p = Some b ∧ key_at pl b = k.
Proof.
  intros Hni Hm k p. rewrite lookup_insert_Some, Hm. split.
  - intros [[<- <-]|[Hne (b & Hb & -> & <-)]].
    + exists a. split_and!; try done. left.
    + exists b. split_and!; try done. by right.
  - intros (b & [->|Hb]%elem_of_cons & -> & <-); [by left|].
    right. split.
    + intros Heq. apply Hni. rewrite Heq. by apply keys_elem.
    + by exists b.
Qed.

Lemma addFirst_spec m l a n :
  wf m l → heap m !! a = Some n → a ∉ l →
  (Key n ∉ keys (payload (heap m)) l) →
  (l = [] → Next n = None) →
  ∃ m', addFirst (Some a) m = Some (tt, m') ∧ wf m' (a :: l)
    ∧ payload (heap m') = payload (heap m)
    ∧ cap (this m') = cap (this m)
    ∧ nodeMap (this m') = <[Key n:=Some a]> (nodeMap (this m)).
Proof.
  intros [Hseg Hhd Htl Hk Hm] Hn Ha Hkn Hnx.
  rewrite <-(key_at_lookup _ _ _ Hn) in Hkn.
  pose proof (index_insert _ _ _ _ Hkn Hm) as Hm'.
  rewrite (key_at_lookup _ _ _ Hn) in *.
  destruct m as [h [c hd tl mp]]; simpl in *.
  destruct l as [|x l]; cbn in Hhd, Htl; subst hd.
  - unfold addFirst. mrun. rewrite Hn. simpl. rewrite lookup_insert_eq. simpl.
    eexists; split; [done|].
    assert (payload (<[a:=set_Pre None n]> h) = payload h) as Hpl
      by by apply (payload_insert_same _ _ n).
    split_and!; try done.
    split; cbn [heap this head tail nodeMap set_head set_tail map_store];
      rewrite ?Hpl; try done.
    + simpl. exists (set_Pre None n). rewrite lookup_insert_eq.
      split_and!; try done. simpl. by apply Hnx.
    + unfold keys. simpl. rewrite (key_at_lookup _ _ _ Hn).
      apply NoDup_singleton.
  - assert (a ≠ x ∧ (a ∉ l) ∧ (x ∉ l)) as (Hax & Hal & Hxl).
    { apply keys_NoDup_locs in Hk. rewrite NoDup_cons in Hk. set_solver. }
    pose proof Hseg as (nx & Hx & _).
    unfold addFirst. mrun. rewrite Hn. simpl. rewrite lookup_insert_eq. simpl.
    rewrite lookup_insert_ne, lookup_insert_ne by done. rewrite Hx. simpl.
    rewrite lookup_insert_ne, lookup_insert_eq by done. simpl.
    eexists; split; [done|].
    set (na := set_Next (Some x) (set_Pre None n)).
    assert (payload (<[x:=set_Pre (Some a) nx]>
                      (<[a:=na]> (<[a:=set_Pre None n]> h))) = payload h) as Hpl.
    { rewrite insert_insert_eq.
      rewrite (payload_insert_same _ _ nx); [|by rewrite lookup_insert_ne|done].
      by apply (payload_insert_same _ _ n). }
    split_and!; try done.
    split; cbn [heap this head tail nodeMap set_head set_tail map_store];
      rewrite ?Hpl; try done.
    + rewrite insert_insert_eq.
      change (seg ?h None (a :: ?l) None) with
        (∃ n0, h !! a = Some n0 ∧ Pre n0 = None ∧ Next n0 = Some x
               ∧ seg h (Some a) l None).
      exists na. rewrite lookup_insert_ne, lookup_insert_eq by done.
      split_and!; try done.
      apply (seg_set_pre _ None); [done|by rewrite lookup_insert_ne|].
      apply seg_insert_notin; [set_solver|done].
    + change (keys ?pl (a :: ?l)) with (key_at pl a :: keys pl l).
      rewrite (key_at_lookup _ _ _ Hn). by apply NoDup_cons.
Qed.

Lemma removeLast_nil m : wf m [] → removeLast m = Some (tt, m).
Proof.
  intros [_ _ Htl _ _]. unfold removeLast. mrun. by rewrite Htl.
Qed.

Lemma removeLast_snoc m l a :
  wf m (l ++ [a]) →
  ∃ m', removeLast m = Some (tt, m') ∧ wf m' l
    ∧ payload (heap m') = payload (heap m)
    ∧ cap (this m') = cap (this m)
    ∧ nodeMap (this m') = delete (key_at (payload (heap m)) a) (nodeMap (this m)).
Proof.
  intros [Hseg Hhd Htl Hk Hm].
  destruct (seg_middle _ _ _ _ Hseg) as (n & Hn & Hpre & _).
  pose proof (index_delete _ _ _ _ _ Hk Hm) as Hm'.
  destruct (keys_NoDup_middle _ _ _ _ Hk) as [_ Hk'].
  pose proof (keys_NoDup_locs _ _ Hk) as Hnd.
  apply seg_app in Hseg as [Hs1 _].
  rewrite (key_at_lookup _ _ _ Hn) in *. rewrite app_nil_r in *.
  rewrite last_or_snoc in Htl.
  destruct m as [h [c hd tl mp]]; simpl in *. subst tl.
  destruct (list_nil_or_snoc l) as [->|(l' & p & ->)];
    rewrite ?last_or_snoc in Hpre; cbn in Hpre.
  - unfold removeLast. mrun. rewrite Hn. simpl. rewrite Hpre. simpl.
    eexists; split; [done|]. split_and!; try done.
  - assert ((p ∉ l') ∧ a ≠ p) as [Hp Hap].
    { rewrite <-app_assoc in Hnd. simpl in Hnd.
      rewrite NoDup_app, !NoDup_cons in Hnd. set_solver. }
    destruct (seg_elem_is_Some _ _ _ _ p Hs1) as [np Hnp]; [set_solver|].
    unfold removeLast. mrun. rewrite Hn. simpl. rewrite Hpre. simpl.
    rewrite Hnp. simpl.
    eexists; split; [done|].
    assert (payload (<[p:=set_Next None np]> h) = payload h) as Hpl
      by by apply (payload_insert_same _ _ np).
    split_and!; try done.
    split; cbn [heap this head tail nodeMap set_head set_tail map_remove];
      rewrite ?Hpl; try done.
    + by apply (seg_set_next _ _ _ _ _ (Some a)).
    + rewrite Hhd. by rewrite !hd_or_app.
    + by rewrite last_or_snoc.
Qed.

Lemma wf_locs_allocated m l a : wf m l → a ∈ l → is_Some (heap m !! a).
Proof. intros [Hseg _ _ _ _]. by eapply seg_elem_is_Some. Qed.

Lemma NewNode_spec m l k v :
  wf m l →
  ∃ a m', NewNode k v m = Some (Some a, m')
    ∧ heap m !! a = None
    ∧ heap m' = <[a:=mkNode k v None None]> (heap m)
    ∧ this m' = this m
    ∧ wf m' l.
Proof.
  intros Hwf. unfold NewNode, alloc.
  set (a := fresh (dom (heap m))).
  assert (heap m !! a = None) as Hfresh.
  { apply not_elem_of_dom. apply is_fresh. }
  assert (a ∉ l) as Hal.
  { intros Hin. destruct (wf_locs_allocated _ _ _ Hwf Hin) as [? ?]. congruence. }
  eexists a, _. split_and!; try done.
  destruct Hwf as [Hseg Hhd Htl Hk Hm].
  split; cbn [heap this]; try done.
  - by apply seg_insert_notin.
  - by rewrite keys_insert_notin.
  - intros k' p. rewrite Hm. split; intros (b & Hb & -> & <-); exists b;
      split_and!; try done; [|symmetry]; apply key_at_insert_ne; by intros ->.
Qed.

Lemma removeLast_spec m l :
  wf m l →
  ∃ m', removeLast m = Some (tt, m') ∧ wf m' (removelast l)
    ∧ payload (heap m') = payload (heap m)
    ∧ cap (this m') = cap (this m)
    ∧ nodeMap (this m') =
        match last l with
        | Some a => delete (key_at (payload (heap m)) a) (nodeMap (this m))
        | None => nodeMap (this m)
        end.
Proof.
  intros Hwf. destruct (list_nil_or_snoc l) as [->|(l' & a & ->)].
  - exists m. by rewrite removeLast_nil.
  - rewrite removelast_last, last_snoc. by apply removeLast_snoc.
Qed.

Lemma run_bind {A B} (c : M A) (f : A → M B) m x m' :
  c m = Some (x, m') → (c ≫= f) m = f x m'.
Proof. intros H. unfold mbind, M_bind. by rewrite H. Qed.

Lemma seg_set_value h prev l nxt a n v :
  h !! a = Some n →
  seg h prev l nxt → seg (<[a:=set_Value v n]> h) prev l nxt.
Proof.
  intros Hn. revert prev. induction l as [|b l IH]; intros prev; simpl; [done|].
  intros (nb & Hb & ? & ? & Hs). destruct (decide (a = b)) as [->|Hne].
  - exists (set_Value v n). rewrite lookup_insert_eq.
    assert (nb = n) as -> by congruence. split_and!; try done. by apply IH.
  - exists nb. rewrite lookup_insert_ne by done. split_and!; try done. by apply IH.
Qed.

Lemma payload_set_value h a n v :
  h !! a = Some n →
  payload (<[a:=set_Value v n]> h) = <[a:=(Key n, v)]> (payload h).
Proof. intros Hn. unfold payload. by rewrite fmap_insert. Qed.

Lemma key_at_set_value h a n v b :
  h !! a = Some n →
  key_at (payload (<[a:=set_Value v n]> h)) b = key_at (payload h) b.
Proof.
  intros Hn. unfold key_at, payload. rewrite !lookup_fmap.
  destruct (decide (a = b)) as [->|Hne].
  - by rewrite lookup_insert_eq, Hn.
  - by rewrite lookup_insert_ne.
Qed.

Lemma keys_set_value h a n v l :
  h !! a = Some n →
  keys (payload (<[a:=set_Value v n]> h)) l = keys (payload h) l.
Proof.
  intros Hn. apply list_fmap_ext. intros i b _. by apply key_at_set_value.
Qed.

Lemma wf_set_value m l a n v :
  wf m l → heap m !! a = Some n →
  wf (mkMem (<[a:=set_Value v n]> (heap m)) (this m)) l.
Proof.
  intros [Hseg Hhd Htl Hk Hm] Hn. split; cbn [heap this]; try done.
  - by apply seg_set_value.
  - by rewrite keys_set_value.
  - intros k p. rewrite Hm. by setoid_rewrite (key_at_set_value _ _ _ v _ Hn).
Qed.

Lemma wf_lookup m l a n :
  wf m l → a ∈ l → heap m !! a = Some n →
  nodeMap (this m) !! Key n = Some (Some a).
Proof.
  intros Hwf Ha Hn. apply (wf_map _ _ Hwf). exists a.
  split_and!; try done. by apply key_at_lookup.
Qed.

Lemma wf_lookup_inv m l k p :
  wf m l → nodeMap (this m) !! k = Some p →
  ∃ l1 a l2 n, p = Some a ∧ l = l1 ++ a :: l2 ∧ heap m !! a = Some n ∧ Key n = k.
Proof.
  intros Hwf Hp. apply (wf_map _ _ Hwf) in Hp as (a & Ha & -> & Hk).
  destruct (wf_locs_allocated _ _ _ Hwf Ha) as [n Hn].
  apply list_elem_of_split in Ha as (l1 & l2 & ->).
  exists l1, a, l2, n. split_and!; try done.
  by rewrite <-Hk, (key_at_lookup _ _ _ Hn).
Qed.

Lemma Get_miss m k :
  nodeMap (this m) !! k = None → Get k m = Some (ANil, m).
Proof. intros H. unfold Get. mrun. by rewrite H. Qed.

Lemma Get_hit m l1 a l2 n :
  wf m (l1 ++ a :: l2) → heap m !! a = Some n →
  ∃ m', Get (Key n) m = Some (Value n, m')
    ∧ wf m' (a :: l1 ++ l2)
    ∧ payload (heap m') = payload (heap m)
    ∧ cap (this m') = cap (this m)
    ∧ nodeMap (this m') = nodeMap (this m).
Proof.
  intros Hwf Hn.
  assert (nodeMap (this m) !! Key n = Some (Some a)) as Hlk.
  { eapply wf_lookup; [done|set_solver|done]. }
  destruct (remove_spec _ _ _ _ Hwf) as (m1 & Hrm & Hwf1 & Hpl1 & Ha1 & Hc1 & Hm1).
  rewrite Hn in Ha1.
  destruct (seg_middle _ _ _ _ (wf_seg _ _ Hwf)) as (n' & Hn' & _ & Hnx).
  assert (n' = n) as -> by congruence.
  destruct (keys_NoDup_middle _ _ _ _ (wf_keys _ _ Hwf)) as [Hkn _].
  rewrite (key_at_lookup _ _ _ Hn) in Hkn, Hm1.
  destruct (addFirst_spec m1 (l1 ++ l2) a n) as (m2 & Had & Hwf2 & Hpl2 & Hc2 & Hm2);
    try done.
  { eapply locs_NoDup_middle, wf_keys, Hwf. }
  { by rewrite Hpl1. }
  { intros [-> ->]%app_eq_nil. done. }
  assert (∃ n2, heap m2 !! a = Some n2 ∧ Value n2 = Value n) as (n2 & Hn2 & Hv).
  { assert (payload (heap m2) !! a = Some (data n)) as Hd.
    { rewrite Hpl2, Hpl1. unfold payload. by rewrite lookup_fmap, Hn. }
    unfold payload in Hd. rewrite lookup_fmap in Hd.
    destruct (heap m2 !! a) as [n2|]; [|done]. exists n2. split; [done|].
    simpl in Hd. by injection Hd. }
  exists m2. split_and!; try done.
  - unfold Get. rewrite (run_bind getThis _ m (this m) m) by done.
    cbn beta. rewrite Hlk. rewrite (run_bind _ _ _ _ _ Hrm).
    rewrite (run_bind _ _ _ _ _ Had).
    unfold mbind, M_bind, deref. rewrite Hn2. simpl. by rewrite Hv.
  - congruence.
  - congruence.
  - rewrite Hm2, Hm1, insert_delete_eq. by apply insert_id.
Qed.

Lemma Put_hit m l1 a l2 n v :
  wf m (l1 ++ a :: l2) → heap m !! a = Some n →
  ∃ m', Put (Key n) v m = Some (tt, m')
    ∧ wf m' (a :: l1 ++ l2)
    ∧ payload (heap m') = <[a:=(Key n, v)]> (payload (heap m))
    ∧ cap (this m') = cap (this m)
    ∧ nodeMap (this m') = nodeMap (this m).
Proof.
  intros Hwf Hn.
  assert (nodeMap (this m) !! Key n = Some (Some a)) as Hlk.
  { eapply wf_lookup; [done|set_solver|done]. }
  set (m0 := mkMem (<[a:=set_Value v n]> (heap m)) (this m)).
  assert (wf m0 (l1 ++ a :: l2)) as Hwf0 by by apply wf_set_value.
  assert (heap m0 !! a = Some (set_Value v n)) as Hn0 by apply lookup_insert_eq.
  assert (payload (heap m0) = <[a:=(Key n, v)]> (payload (heap m))) as Hpl0
    by by apply payload_set_value.
  destruct (remove_spec _ _ _ _ Hwf0) as (m1 & Hrm & Hwf1 & Hpl1 & Ha1 & Hc1 & Hm1).
  rewrite Hn0 in Ha1.
  destruct (seg_middle _ _ _ _ (wf_seg _ _ Hwf0)) as (n' & Hn' & _ & Hnx).
  assert (n' = set_Value v n) as -> by congruence.
  destruct (keys_NoDup_middle _ _ _ _ (wf_keys _ _ Hwf0)) as [Hkn _].
  rewrite (key_at_lookup _ _ _ Hn0) in Hkn, Hm1.
  destruct (addFirst_spec m1 (l1 ++ l2) a (set_Value v n))
    as (m2 & Had & Hwf2 & Hpl2 & Hc2 & Hm2); try done.
  { eapply locs_NoDup_middle, wf_keys, Hwf0. }
  { by rewrite Hpl1. }
  { intros [-> ->]%app_eq_nil. done. }
  exists m2. split_and!; try done.
  - unfold Put. rewrite (run_bind getThis _ m (this m) m) by done.
    cbn beta. rewrite Hlk.
    rewrite (run_bind (store (Some a) (set_Value v)) _ m tt m0).
    2:{ unfold store. by rewrite Hn. }
    rewrite (run_bind _ _ _ _ _ Hrm). done.
  - congruence.
  - rewrite Hc2, Hc1. done.
  - rewrite Hm2, Hm1. simpl. rewrite insert_delete_eq. by apply insert_id.
Qed.

Lemma wf_size m l : wf m l → size (nodeMap (this m)) = length l.
Proof.
  intros Hwf.
  assert (dom (nodeMap (this m)) = list_to_set (keys (payload (heap m)) l)) as Hd.
  { apply set_eq. intros k. rewrite elem_of_dom, elem_of_list_to_set.
    unfold keys. rewrite list_elem_of_fmap. unfold is_Some.
    setoid_rewrite (wf_map _ _ Hwf). naive_solver. }
  rewrite <-size_dom, Hd, size_list_to_set by apply (wf_keys _ _ Hwf).
  apply length_fmap.
Qed.

Lemma wf_absent m l k :
  wf m l → nodeMap (this m) !! k = None → k ∉ keys (payload (heap m)) l.
Proof.
  intros Hwf Hlk [a [-> Ha]]%list_elem_of_fmap.
  destruct (wf_locs_allocated _ _ _ Hwf Ha) as [n Hn].
  rewrite (key_at_lookup _ _ _ Hn) in Hlk.
  by rewrite (wf_lookup _ _ _ _ Hwf Ha Hn) in Hlk.
Qed.

Lemma Put_miss m l k v :
  wf m l → nodeMap (this m) !! k = None →
  let l0 := if decide (cap (this m) ≤ Z.of_nat (length l))
            then removelast l else l in
  ∃ a m', Put k v m = Some (tt, m')
    ∧ wf m' (a :: l0)
    ∧ heap m !! a = None
    ∧ payload (heap m') = <[a:=(k, v)]> (payload (heap m))
    ∧ cap (this m') = cap (this m).
Proof.
  intros Hwf Hlk l0.
  assert (∃ m1, (if decide (cap (this m) ≤ Z.of_nat (size (nodeMap (this m))))
                 then removeLast else mret tt) m = Some (tt, m1)
            ∧ wf m1 l0 ∧ payload (heap m1) = payload (heap m)
            ∧ cap (this m1) = cap (this m)
            ∧ nodeMap (this m1) !! k = None)
    as (m1 & Hev & Hwf1 & Hpl1 & Hc1 & Hm1).
  { subst l0. rewrite (wf_size _ _ Hwf). case_decide.
    - destruct (removeLast_spec _ _ Hwf) as (m1 & ? & ? & ? & ? & Hm1).
      exists m1. split_and!; try done. rewrite Hm1.
      destruct (last l); [|done]. by apply lookup_delete_None; right.
    - exists m. split_and!; done. }
  destruct (NewNode_spec m1 l0 k v Hwf1) as (a & m2 & Hnew & Hfr & Hh2 & Ht2 & Hwf2).
  assert (heap m2 !! a = Some (mkNode k v None None)) as Hn2.
  { rewrite Hh2. apply lookup_insert_eq. }
  assert (a ∉ l0) as Hal.
  { intros Hin. destruct (wf_locs_allocated _ _ _ Hwf1 Hin) as [? ?]. congruence. }
  assert (k ∉ keys (payload (heap m2)) l0) as Hk2.
  { rewrite Hh2, keys_insert_notin by done. eapply wf_absent; done. }
  destruct (addFirst_spec m2 l0 a _ Hwf2 Hn2)
    as (m3 & Had & Hwf3 & Hpl3 & Hc3 & Hm3); try done.
  exists a, m3. split_and!; try done.
  - unfold Put. rewrite (run_bind getThis _ m (this m) m) by done.
    cbn beta. rewrite Hlk. rewrite (run_bind _ _ _ _ _ Hev).
    rewrite (run_bind _ _ _ _ _ Hnew). done.
  - apply (f_equal (λ pl, pl !! a)) in Hpl1. unfold payload in Hpl1.
    rewrite !lookup_fmap, Hfr in Hpl1. by destruct (heap m !! a).
  - rewrite Hpl3, Hh2. unfold payload at 1. rewrite fmap_insert.
    fold (payload (heap m1)). by rewrite Hpl1.
  - rewrite Hc3, Ht2. done.
Qed.

(** ** Recency order and the script of calls *)

Lemma last_touch_snoc os o k :
  last_touch (os ++ [o]) k =
  if decide (op_key o = k) then Some (length os) else last_touch os k.
Proof.
  induction os as [|o' os IH]; simpl.
  - by case_decide.
  - rewrite IH. case_decide; [done|]. by destruct (last_touch os k).
Qed.

Lemma last_touch_lt os k t : last_touch os k = Some t → (t < length os)%nat.
Proof.
  revert t. induction os as [|o os IH]; intros t; simpl; [done|].
  destruct (last_touch os k) as [t'|].
  - intros [= <-]. specialize (IH t' eq_refl). lia.
  - case_decide; [|done]. intros [= <-]. lia.
Qed.

Lemma stamp_le os k : (stamp os k ≤ length os)%nat.
Proof.
  unfold stamp. destruct (last_touch os k) as [t|] eqn:E; simpl; [|lia].
  apply last_touch_lt in E. lia.
Qed.

Lemma stamp_snoc_eq os o : stamp (os ++ [o]) (op_key o) = S (length os).
Proof. unfold stamp. rewrite last_touch_snoc. by rewrite decide_True. Qed.

Lemma stamp_snoc_ne os o k : op_key o ≠ k → stamp (os ++ [o]) k = stamp os k.
Proof. intros. unfold stamp. rewrite last_touch_snoc. by rewrite decide_False. Qed.

Lemma ordered_sublist os ks' ks : ks' `sublist_of` ks → ordered os ks → ordered os ks'.
Proof.
  induction 1 as [|k ks1 ks2 Hsub IH|k ks1 ks2 Hsub IH]; simpl; [done| |].
  - intros (? & Hall & ?). split_and!; [done| |by apply IH].
    rewrite Forall_forall in *. intros k' Hk'. apply Hall.
    by apply (sublist_subseteq _ _ Hsub).
  - intros (_ & _ & ?). by apply IH.
Qed.

Lemma ordered_snoc_notin os o ks :
  op_key o ∉ ks → ordered os ks → ordered (os ++ [o]) ks.
Proof.
  induction ks as [|k ks IH]; simpl; [done|].
  intros [Hne Hni]%not_elem_of_cons (Hpos & Hall & Hord).
  rewrite stamp_snoc_ne by done. split_and!; [done| |by apply IH].
  rewrite Forall_forall in *. intros k' Hk'.
  rewrite stamp_snoc_ne; [by apply Hall|]. by intros <-.
Qed.

Lemma ordered_touch os o ks :
  op_key o ∉ ks → ordered os ks → ordered (os ++ [o]) (op_key o :: ks).
Proof.
  intros Hni Hord. simpl. rewrite stamp_snoc_eq. split_and!; [lia| |].
  - rewrite Forall_forall. intros k Hk. rewrite stamp_snoc_ne by by intros <-.
    pose proof (stamp_le os k). lia.
  - by apply ordered_snoc_notin.
Qed.


Lemma ordered_pos os ks k : ordered os ks → k ∈ ks → (0 < stamp os k)%nat.
Proof.
  induction ks as [|k' ks IH]; simpl; [by intros _ ?%elem_of_nil|].
  intros (? & _ & ?) [->|Hk]%elem_of_cons; auto.
Qed.

Lemma sublist_removelast {A} (l : list A) : removelast l `sublist_of` l.
Proof.
  destruct (list_nil_or_snoc l) as [->|(l' & x & ->)]; [done|].
  rewrite removelast_last. by apply sublist_inserts_r.
Qed.

Lemma length_removelast_le {A} (l : list A) :
  l ≠ [] → S (length (removelast l)) = length l.
Proof.
  destruct (list_nil_or_snoc l) as [->|(l' & x & ->)]; [done|]. intros _.
  rewrite removelast_last, length_app. simpl. lia.
Qed.

(** ** The invariant holds along every script *)

Lemma keys_insert_same_key pl a d l :
  (a ∈ l → d.1 = key_at pl a) → keys (<[a:=d]> pl) l = keys pl l.
Proof.
  intros Hd. apply list_fmap_ext. intros i b Hb. unfold key_at.
  destruct (decide (a = b)) as [->|Hne].
  - rewrite lookup_insert_eq. simpl. rewrite Hd; [done|].
    by eapply list_elem_of_lookup_2.
  - by rewrite lookup_insert_ne.
Qed.

Lemma inv_init c : inv c [] (init c) [].
Proof.
  split; try done.
  - split; try done; [apply NoDup_nil_2|].
    intros k p. cbn. rewrite lookup_empty. split; [done|].
    by intros (a & ?%elem_of_nil & _).
  - simpl. lia.
Qed.

Lemma inv_Get_miss c os m l k :
  inv c os m l → nodeMap (this m) !! k = None → inv c (os ++ [OGet k]) m l.
Proof.
  intros [Hwf Hc Hlen Hord] Hlk. split; try done.
  apply ordered_snoc_notin; [|done]. by apply wf_absent.
Qed.

Lemma inv_hit c os m l1 a l2 n o m' :
  inv c os m (l1 ++ a :: l2) → heap m !! a = Some n → op_key o = Key n →
  wf m' (a :: l1 ++ l2) → cap (this m') = cap (this m) →
  (∃ v, payload (heap m') = <[a:=(Key n, v)]> (payload (heap m))) →
  inv c (os ++ [o]) m' (a :: l1 ++ l2).
Proof.
  intros [Hwf Hc Hlen Hord] Hn Ho Hwf' Hc' [v Hpl]. split; try done.
  - congruence.
  - rewrite length_app in Hlen. simpl in *. rewrite length_app. lia.
  - unfold order in *. rewrite Hpl.
    rewrite keys_insert_same_key by by rewrite (key_at_lookup _ _ _ Hn).
    change (keys ?pl (a :: ?l)) with (key_at pl a :: keys pl l).
    rewrite (key_at_lookup _ _ _ Hn), <-Ho.
    destruct (keys_NoDup_middle _ _ _ _ (wf_keys _ _ Hwf)) as [Hni _].
    rewrite (key_at_lookup _ _ _ Hn), <-Ho in Hni.
    apply ordered_touch; [done|]. eapply ordered_sublist; [|done].
    unfold keys. apply fmap_sublist, sublist_app; [done|]. by constructor.
Qed.

Lemma inv_miss c os m l k v a m' :
  inv c os m l → nodeMap (this m) !! k = None →
  let l0 := if decide (cap (this m) ≤ Z.of_nat (length l))
            then removelast l else l in
  wf m' (a :: l0) → heap m !! a = None → cap (this m') = cap (this m) →
  payload (heap m') = <[a:=(k, v)]> (payload (heap m)) →
  inv c (os ++ [OPut k v]) m' (a :: l0).
Proof.
  intros [Hwf Hc Hlen Hord] Hlk l0 Hwf' Hfr Hc' Hpl.
  assert (l0 `sublist_of` l) as Hsub.
  { subst l0. case_decide; [apply sublist_removelast|done]. }
  assert (a ∉ l0) as Hal.
  { intros Hin%(sublist_subseteq _ _ Hsub).
    destruct (wf_locs_allocated _ _ _ Hwf Hin) as [? ?]. congruence. }
  split; try done.
  - congruence.
  - subst l0. cbn [length]. case_decide as Hfull.
    + destruct (decide (l = [])) as [->|Hne]; [simpl; lia|].
      rewrite length_removelast_le by done. lia.
    + lia.
  - unfold order in *. rewrite Hpl.
    change (keys ?pl (a :: ?l)) with (key_at pl a :: keys pl l).
    rewrite keys_insert_same_key by done.
    unfold key_at at 1. rewrite lookup_insert_eq. simpl.
    apply (ordered_touch os (OPut k v)).
    + intros Hin. apply (wf_absent _ _ _ Hwf Hlk).
      eapply sublist_subseteq; [|done]. by apply fmap_sublist.
    + eapply ordered_sublist; [|done]. by apply fmap_sublist.
Qed.

Lemma call_step c os m l o :
  inv c os m l →
  ∃ r m' l', call o m = Some (r, m') ∧ inv c (os ++ [o]) m' l'.
Proof.
  intros Hinv. pose proof (inv_wf _ _ _ _ Hinv) as Hwf.
  destruct o as [k|k v]; simpl;
    destruct (nodeMap (this m) !! k) as [p|] eqn:Hlk.
  - destruct (wf_lookup_inv _ _ _ _ Hwf Hlk) as (l1 & a & l2 & n & -> & -> & Hn & <-).
    destruct (Get_hit _ _ _ _ _ Hwf Hn) as (m' & HG & Hwf' & Hpl & Hc' & _).
    exists (Some (Value n)), m', (a :: l1 ++ l2). split.
    + by rewrite (run_bind _ _ _ _ _ HG).
    + eapply (inv_hit _ _ _ _ _ _ _ (OGet (Key n))); try done.
      exists (Value n). rewrite Hpl. symmetry. apply insert_id.
      unfold payload. by rewrite lookup_fmap, Hn.
  - exists (Some ANil), m, l. split.
    + by rewrite (run_bind _ _ _ _ _ (Get_miss _ _ Hlk)).
    + by apply inv_Get_miss.
  - destruct (wf_lookup_inv _ _ _ _ Hwf Hlk) as (l1 & a & l2 & n & -> & -> & Hn & <-).
    destruct (Put_hit _ _ _ _ _ v Hwf Hn) as (m' & HP & Hwf' & Hpl & Hc' & _).
    exists None, m', (a :: l1 ++ l2). split.
    + by rewrite (run_bind _ _ _ _ _ HP).
    + eapply (inv_hit _ _ _ _ _ _ _ (OPut (Key n) v)); eauto.
  - destruct (Put_miss _ _ _ v Hwf Hlk) as (a & m' & HP & Hwf' & Hfr & Hpl & Hc').
    eexists None, m', _. split.
    + by rewrite (run_bind _ _ _ _ _ HP).
    + by eapply inv_miss.
Qed.

Lemma run_from c hist m l os :
  inv c hist m l →
  ∃ rs m' l', run os m = Some (rs, m') ∧ inv c (hist ++ os) m' l'.
Proof.
  revert hist m l. induction os as [|o os IH]; intros hist m l Hinv.
  - exists [], m, l. by rewrite app_nil_r.
  - destruct (call_step _ _ _ _ o Hinv) as (r & m1 & l1 & Hcall & Hinv1).
    destruct (IH _ _ _ Hinv1) as (rs & m2 & l2 & Hrun & Hinv2).
    exists (r :: rs), m2, l2. split.
    + simpl. rewrite (run_bind _ _ _ _ _ Hcall), (run_bind _ _ _ _ _ Hrun). done.
    + by rewrite <-app_assoc in Hinv2.
Qed.

Lemma run_init c os :
  ∃ rs m l, run os (init c) = Some (rs, m) ∧ inv c os m l.
Proof. apply (run_from c [] (init c) []), inv_init. Qed.

Lemma exec_inv c os m : exec os (init c) = Some m → ∃ l, inv c os m l.
Proof.
  destruct (run_init c os) as (rs & m' & l & Hrun & Hinv).
  unfold exec. rewrite Hrun. intros [= <-]. eauto.
Qed.

(** ** Stored keys and values *)

Lemma wf_stored m l : wf m l → stored m = list_to_set (order m l).
Proof.
  intros Hwf. apply set_eq. intros k. unfold stored, order.
  rewrite elem_of_dom, elem_of_list_to_set.
  unfold keys. rewrite list_elem_of_fmap. unfold is_Some.
  setoid_rewrite (wf_map _ _ Hwf). naive_solver.
Qed.

Lemma payload_lookup h a n : h !! a = Some n → payload h !! a = Some (Key n, Value n).
Proof. intros Hn. unfold payload. by rewrite lookup_fmap, Hn. Qed.

Lemma payload_lookup_inv h a k v :
  payload h !! a = Some (k, v) → ∃ n, h !! a = Some n ∧ Key n = k ∧ Value n = v.
Proof.
  unfold payload. rewrite lookup_fmap. destruct (h !! a) as [n|]; [|done].
  intros [= <- <-]. eauto.
Qed.

Lemma value_of_payload m k :
  value_of m k =
  match nodeMap (this m) !! k with
  | Some (Some a) => snd <$> payload (heap m) !! a
  | _ => None
  end.
Proof.
  unfold value_of, payload. destruct (nodeMap (this m) !! k) as [[a|]|]; try done.
  rewrite lookup_fmap. by destruct (heap m !! a).
Qed.

Lemma value_of_node m l a n :
  wf m l → a ∈ l → heap m !! a = Some n → value_of m (Key n) = Some (Value n).
Proof.
  intros Hwf Ha Hn. unfold value_of.
  by rewrite (wf_lookup _ _ _ _ Hwf Ha Hn), Hn.
Qed.

Lemma stored_lookup m k : k ∈ stored m ↔ is_Some (nodeMap (this m) !! k).
Proof. apply elem_of_dom. Qed.

Lemma not_stored_lookup m k : k ∉ stored m ↔ nodeMap (this m) !! k = None.
Proof. apply not_elem_of_dom. Qed.




(** ** Properties of the public interface *)








Lemma Get_stored c os m k :
  exec os (init c) = Some m → k ∈ stored m →
  ∃ v m', value_of m k = Some v ∧ Get k m = Some (v, m').
Proof.
  intros Hm [p Hlk]%stored_lookup.
  destruct (exec_inv _ _ _ Hm) as [l [Hwf _ _ _]].
  destruct (wf_lookup_inv _ _ _ _ Hwf Hlk) as (l1 & a & l2 & n & -> & -> & Hn & <-).
  destruct (Get_hit _ _ _ _ _ Hwf Hn) as (m' & HG & _).
  exists (Value n), m'. split; [|done].
  eapply value_of_node; [done| |done]. set_solver.
Qed.

(** C10. On a cache reached by any script, a key stored with the value nil
    reads as nil, which is exactly what [Get] returns for a key that is not
    stored: the two results are equal, and the caller's nil test reports a
    miss for both. *)
Theorem stored_nil_reads_as_miss (c : Z) (os : list op) (m : mem) (k k' : any) :
  exec os (init c) = Some m →
  value_of m k = Some ANil → k' ∉ stored m →
  fst <$> Get k m = Some ANil
  ∧ fst <$> Get k' m = Some ANil
  ∧ fst <$> Get k m = fst <$> Get k' m
  ∧ is_miss ANil = true.
Proof.
  intros Hm Hv Hk'.
  assert (k ∈ stored m) as Hk.
  { apply stored_lookup. unfold value_of in Hv.
    by destruct (nodeMap (this m) !! k). }
  destruct (Get_stored _ _ _ _ Hm Hk) as (v & m' & Hv' & HG).
  assert (v = ANil) as -> by congruence.
  apply not_stored_lookup in Hk'.
  rewrite HG, (Get_miss _ _ Hk'). done.
Qed.

Lemma stored_nil_reads_as_miss_witness :
  let m := mkMem {[1%positive := mkNode (AStr "a") ANil None None]}
                 (mkLRUCache 3 (Some 1%positive) (Some 1%positive)
                             {[AStr "a" := Some 1%positive]}) in
  (exec [OPut (AStr "a") ANil] (init 3) = Some m
   ∧ value_of m (AStr "a") = Some ANil
   ∧ AStr "b" ∉ stored m)
  ∧ fst <$> Get (AStr "a") m = Some ANil
  ∧ fst <$> Get (AStr "b") m = Some ANil
  ∧ fst <$> Get (AStr "a") m = fst <$> Get (AStr "b") m
  ∧ is_miss ANil = true.
Proof.
  intros m.
  assert (exec [OPut (AStr "a") ANil] (init 3) = Some m) as H1
    by (vm_compute; reflexivity).
  assert (value_of m (AStr "a") = Some ANil) as H2 by (vm_compute; reflexivity).
  assert (AStr "b" ∉ stored m) as H3 by (vm_compute; discriminate).
  split; [by split_and!|].
  exact (stored_nil_reads_as_miss 3 _ m _ _ H1 H2 H3).
Defined.







Lemma order_app m l1 l2 : order m (l1 ++ l2) = order m l1 ++ order m l2.
Proof. apply keys_app. Qed.

Lemma order_cons m a l :
  order m (a :: l) = key_at (payload (heap m)) a :: order m l.
Proof. done. Qed.

Lemma value_of_same m m' :
  payload (heap m') = payload (heap m) → nodeMap (this m') = nodeMap (this m) →
  ∀ k, value_of m' k = value_of m k.
Proof. intros Hpl Hmp k. by rewrite !value_of_payload, Hpl, Hmp. Qed.

(** C7. On a cache reached by any script, [Get] of a stored key returns
    the value stored under it and changes nothing but the recency order: the
    key, found somewhere in the list, is moved to its front and the other
    entries keep their relative order; no node is allocated or dropped, every
    node keeps its key and value, and the index, the set of stored keys,
    their number and the value under every key are the same afterwards. *)
Theorem Get_hit_frame (c : Z) (os : list op) (m : mem) (k : any) :
  exec os (init c) = Some m → k ∈ stored m →
  ∃ v m' l1 a l2,
    value_of m k = Some v ∧ Get k m = Some (v, m')
    ∧ wf m (l1 ++ a :: l2) ∧ wf m' (a :: l1 ++ l2)
    ∧ order m (l1 ++ a :: l2) = order m l1 ++ k :: order m l2
    ∧ order m' (a :: l1 ++ l2) = k :: order m l1 ++ order m l2
    ∧ payload (heap m') = payload (heap m)
    ∧ nodeMap (this m') = nodeMap (this m)
    ∧ cap (this m') = cap (this m)
    ∧ stored m' = stored m ∧ len m' = len m
    ∧ ∀ k', value_of m' k' = value_of m k'.
Proof.
  intros Hm [p Hlk]%stored_lookup.
  destruct (exec_inv _ _ _ Hm) as [l [Hwf _ _ _]].
  destruct (wf_lookup_inv _ _ _ _ Hwf Hlk) as (l1 & a & l2 & n & -> & -> & Hn & <-).
  destruct (Get_hit _ _ _ _ _ Hwf Hn) as (m' & HG & Hwf' & Hpl & Hc & Hmp).
  exists (Value n), m', l1, a, l2. split_and!; try done.
  - eapply value_of_node; [done| |done]. set_solver.
  - by rewrite order_app, order_cons, (key_at_lookup _ _ _ Hn).
  - rewrite order_cons. unfold order. rewrite Hpl.
    by rewrite (key_at_lookup _ _ _ Hn), keys_app.
  - unfold stored. by rewrite Hmp.
  - unfold len. by rewrite Hmp.
  - by apply value_of_same.
Qed.

Lemma Get_hit_frame_witness :
  let m := after 2 [OPut (AInt 2) (AInt 20); OPut (AInt 1) (AInt 10)] in
  (exec [OPut (AInt 2) (AInt 20); OPut (AInt 1) (AInt 10)] (init 2) = Some m
   ∧ AInt 2 ∈ stored m)
  ∧ ∃ v m' l1 a l2,
    value_of m (AInt 2) = Some v ∧ Get (AInt 2) m = Some (v, m')
    ∧ wf m (l1 ++ a :: l2) ∧ wf m' (a :: l1 ++ l2)
    ∧ order m (l1 ++ a :: l2) = order m l1 ++ AInt 2 :: order m l2
    ∧ order m' (a :: l1 ++ l2) = AInt 2 :: order m l1 ++ order m l2
    ∧ payload (heap m') = payload (heap m)
    ∧ nodeMap (this m') = nodeMap (this m)
    ∧ cap (this m') = cap (this m)
    ∧ stored m' = stored m ∧ len m' = len m
    ∧ ∀ k', value_of m' k' = value_of m k'.
Proof.
  intros m.
  assert (exec [OPut (AInt 2) (AInt 20); OPut (AInt 1) (AInt 10)] (init 2)
          = Some m) as H1 by (vm_compute; reflexivity).
  assert (AInt 2 ∈ stored m) as H2.
  { apply stored_lookup. vm_compute. eexists. reflexivity. }
  split; [by split|].
  exact (Get_hit_frame 2 _ m _ H1 H2).
Defined.





Lemma stamp_pos_last_touch os k :
  (0 < stamp os k)%nat → ∃ t, last_touch os k = Some t ∧ stamp os k = S t.
Proof.
  unfold stamp. destruct (last_touch os k) as [t|]; simpl; [eauto|lia].
Qed.



(** In the scenario above the evicted key is 2. *)
Example eviction_scenario :
  stored (after 2 [OPut (AInt 1) (AInt 1); OPut (AInt 2) (AInt 2);
                   OGet (AInt 1); OPut (AInt 3) (AInt 3)])
  = {[AInt 1; AInt 3]}.
Proof. vm_compute. reflexivity. Qed.

Lemma last_or_None_inv l : last_or l None = None → l = [].
Proof.
  destruct (list_nil_or_snoc l) as [->|(l' & x & ->)]; [done|].
  by rewrite last_or_snoc.
Qed.

Lemma last_or_Some_inv l p : last_or l None = Some p → ∃ l', l = l' ++ [p].
Proof.
  destruct (list_nil_or_snoc l) as [->|(l' & x & ->)]; [done|].
  rewrite last_or_snoc. intros [= ->]. eauto.
Qed.

(** C8, refuted as stated: with the keys 3, 2, 1 in the list, [remove]
    applied to the middle node leaves that node's own [Pre] and [Next]
    pointing at its former neighbours. *)
Lemma remove_keeps_own_links :
  ∃ m a m' n',
    exec [OPut (AInt 1) (AInt 1); OPut (AInt 2) (AInt 2);
          OPut (AInt 3) (AInt 3)] (init 3) = Some m
    ∧ nodeMap (this m) !! AInt 2 = Some (Some a)
    ∧ remove (Some a) m = Some (tt, m')
    ∧ heap m' !! a = Some n'
    ∧ Pre n' = Some 3%positive ∧ Next n' = Some 1%positive.
Proof.
  eexists _, _, _, _. split_and!; vm_compute; reflexivity.
Qed.

(** C8, amended. On a cache reached by any script, [remove] applied to a
    linked node succeeds, takes it out of the list, which becomes one node
    shorter (as does the index), and reconnects its neighbours: the
    predecessor's [Next] is the node's [Next], the successor's [Pre] is the
    node's [Pre], and [head] or [tail] take these over at the ends.  The
    node itself is left untouched, its [Pre] and [Next] included; it is the
    [addFirst] that follows which resets [Pre], overwrites [Next] when the
    list is not empty, and so puts the node back at the front of a well
    formed list. *)
Theorem remove_unlinks (c : Z) (os : list op) (m : mem) (k : any) (a : loc) :
  exec os (init c) = Some m → nodeMap (this m) !! k = Some (Some a) →
  ∃ l1 l2 n m' m'',
    wf m (l1 ++ a :: l2) ∧ heap m !! a = Some n ∧ Key n = k
    ∧ remove (Some a) m = Some (tt, m')
    ∧ wf m' (l1 ++ l2) ∧ S (len m') = len m
    ∧ heap m' !! a = Some n
    ∧ (∀ p, Pre n = Some p → ∃ np, heap m' !! p = Some np ∧ Next np = Next n)
    ∧ (∀ x, Next n = Some x → ∃ nx, heap m' !! x = Some nx ∧ Pre nx = Pre n)
    ∧ (Pre n = None → head (this m') = Next n)
    ∧ (Next n = None → tail (this m') = Pre n)
    ∧ addFirst (Some a) m' = Some (tt, m'') ∧ wf m'' (a :: l1 ++ l2).
Proof.
  intros Hm Hlk. destruct (exec_inv _ _ _ Hm) as [l [Hwf _ _ _]].
  destruct (wf_lookup_inv _ _ _ _ Hwf Hlk)
    as (l1 & a' & l2 & n & [= <-] & -> & Hn & <-).
  destruct (remove_spec _ _ _ _ Hwf) as (m1 & Hrm & Hwf1 & Hpl1 & Ha1 & _ & _).
  rewrite Hn in Ha1.
  destruct (seg_middle _ _ _ _ (wf_seg _ _ Hwf)) as (n' & Hn' & Hpre & Hnx).
  assert (n' = n) as -> by congruence.
  destruct (keys_NoDup_middle _ _ _ _ (wf_keys _ _ Hwf)) as [Hkn _].
  rewrite (key_at_lookup _ _ _ Hn) in Hkn.
  destruct (addFirst_spec m1 (l1 ++ l2) a n) as (m2 & Had & Hwf2 & _); try done.
  { eapply locs_NoDup_middle, wf_keys, Hwf. }
  { by rewrite Hpl1. }
  { intros [-> ->]%app_eq_nil. done. }
  exists l1, l2, n, m1, m2. split_and!; try done.
  - unfold len. rewrite (wf_size _ _ Hwf), (wf_size _ _ Hwf1), !length_app.
    simpl. lia.
  - intros p Hp. rewrite Hp in Hpre. symmetry in Hpre.
    apply last_or_Some_inv in Hpre as [l1' ->].
    pose proof (wf_seg _ _ Hwf1) as Hs. rewrite <-app_assoc in Hs.
    destruct (seg_middle _ _ _ _ Hs) as (np & ? & _ & Hnp).
    exists np. split; [done|]. by rewrite Hnp, Hnx.
  - intros x Hx. rewrite Hx in Hnx. destruct l2 as [|x' l2]; [done|].
    injection Hnx as <-.
    destruct (seg_middle _ _ _ _ (wf_seg _ _ Hwf1)) as (nx & ? & Hnp & _).
    exists nx. split; [done|]. by rewrite Hnp, Hpre.
  - intros Hp. rewrite Hp in Hpre. symmetry in Hpre.
    apply last_or_None_inv in Hpre as ->.
    by rewrite (wf_head _ _ Hwf1), Hnx.
  - intros Hx. rewrite Hx in Hnx. destruct l2; [|done].
    by rewrite (wf_tail _ _ Hwf1), app_nil_r, Hpre.
Qed.

Lemma remove_unlinks_witness :
  let os := [OPut (AInt 1) (AInt 1); OPut (AInt 2) (AInt 2);
             OPut (AInt 3) (AInt 3)] in
  let m := after 3 os in
  (exec os (init 3) = Some m
   ∧ nodeMap (this m) !! AInt 2 = Some (Some 2%positive))
  ∧ ∃ l1 l2 n m' m'',
    wf m (l1 ++ 2%positive :: l2) ∧ heap m !! 2%positive = Some n
    ∧ Key n = AInt 2
    ∧ remove (Some 2%positive) m = Some (tt, m')
    ∧ wf m' (l1 ++ l2) ∧ S (len m') = len m
    ∧ heap m' !! 2%positive = Some n
    ∧ (∀ p, Pre n = Some p → ∃ np, heap m' !! p = Some np ∧ Next np = Next n)
    ∧ (∀ x, Next n = Some x → ∃ nx, heap m' !! x = Some nx ∧ Pre nx = Pre n)
    ∧ (Pre n = None → head (this m') = Next n)
    ∧ (Next n = None → tail (this m') = Pre n)
    ∧ addFirst (Some 2%positive) m' = Some (tt, m'')
    ∧ wf m'' (2%positive :: l1 ++ l2).
Proof.
  intros os m.
  assert (exec os (init 3) = Some m) as H1 by (vm_compute; reflexivity).
  assert (nodeMap (this m) !! AInt 2 = Some (Some 2%positive)) as H2
    by (vm_compute; reflexivity).
  split; [by split|].
  exact (remove_unlinks 3 os m (AInt 2) 2%positive H1 H2).
Defined.

(** ** The list as its links show it *)

Lemma walk_next_seg h prev l fuel :
  seg h prev l None → (length l ≤ fuel)%nat →
  walk_next h fuel (hd_or l None) = l.
Proof.
  revert prev fuel. induction l as [|a l IH]; intros prev fuel; simpl.
  - intros _ _. by destruct fuel.
  - intros (n & Hn & _ & Hnx & Hs) Hf. destruct fuel as [|f]; [lia|].
    simpl. rewrite Hn. simpl. rewrite Hnx. f_equal. eapply IH; [done|lia].
Qed.




(** ** The cache holds a plain list *)

Lemma keys_entries pl l : keys pl l = (entries pl l).*1.
Proof.
  unfold keys, entries. rewrite <-list_fmap_compose. apply list_fmap_ext.
  intros i a _. unfold key_at, entry_at. simpl. by destruct (pl !! a).
Qed.

Lemma entries_app pl l1 l2 : entries pl (l1 ++ l2) = entries pl l1 ++ entries pl l2.
Proof. apply fmap_app. Qed.

Lemma length_entries pl l : length (entries pl l) = length l.
Proof. apply length_fmap. Qed.

Lemma entry_at_lookup h a n :
  h !! a = Some n → entry_at (payload h) a = (Key n, Value n).
Proof. intros Hn. unfold entry_at. by rewrite (payload_lookup _ _ _ Hn). Qed.

Lemma entries_insert_notin pl a d l :
  a ∉ l → entries (<[a:=d]> pl) l = entries pl l.
Proof.
  intros Ha. apply list_fmap_ext. intros i b Hb. unfold entry_at.
  rewrite lookup_insert_ne; [done|]. intros ->. apply Ha.
  by eapply list_elem_of_lookup_2.
Qed.

Lemma fmap_removelast {A B} (f : A → B) (l : list A) :
  f <$> removelast l = removelast (f <$> l).
Proof.
  destruct (list_nil_or_snoc l) as [->|(l' & x & ->)]; [done|].
  rewrite fmap_app. simpl. by rewrite !removelast_last.
Qed.

Lemma assoc_None k s : assoc k s = None ↔ k ∉ s.*1.
Proof.
  induction s as [|[k' v] s IH]; simpl.
  - split; [|done]. intros _. apply not_elem_of_nil.
  - rewrite not_elem_of_cons. case_decide; [naive_solver|].
    rewrite IH. naive_solver.
Qed.

Lemma assoc_middle k v s1 s2 :
  k ∉ s1.*1 → assoc k (s1 ++ (k, v) :: s2) = Some v.
Proof.
  induction s1 as [|[k' v'] s1 IH]; simpl.
  - intros _. by rewrite decide_True.
  - intros [? ?]%not_elem_of_cons. rewrite decide_False by done. by apply IH.
Qed.

Lemma assoc_Some_elem k v s : assoc k s = Some v → (k, v) ∈ s.
Proof.
  induction s as [|[k' v'] s IH]; simpl; [done|].
  case_decide as Hk.
  - intros [= ->]. subst. left.
  - intros ?. right. by apply IH.
Qed.

Lemma without_notin k s : k ∉ s.*1 → without k s = s.
Proof.
  induction s as [|[k' v] s IH]; simpl; [done|].
  intros [? ?]%not_elem_of_cons. unfold without in *.
  rewrite filter_cons_True by (simpl; congruence). by rewrite IH.
Qed.

Lemma without_middle k v s1 s2 :
  k ∉ s1.*1 → k ∉ s2.*1 → without k (s1 ++ (k, v) :: s2) = s1 ++ s2.
Proof.
  intros H1 H2. unfold without. rewrite filter_app, filter_cons_False.
  - fold (without k s1) (without k s2). by rewrite !without_notin.
  - simpl. intros Hne. by apply Hne.
Qed.

Lemma value_of_assoc m l k :
  wf m l → value_of m k = assoc k (entries (payload (heap m)) l).
Proof.
  intros Hwf. destruct (nodeMap (this m) !! k) as [p|] eqn:Hlk.
  - destruct (wf_lookup_inv _ _ _ _ Hwf Hlk) as (l1 & a & l2 & n & -> & -> & Hn & <-).
    rewrite (value_of_node _ _ a n Hwf); [|set_solver|done].
    rewrite entries_app. simpl. rewrite (entry_at_lookup _ _ _ Hn).
    rewrite assoc_middle; [done|]. rewrite <-keys_entries.
    pose proof (wf_keys _ _ Hwf) as Hnd. unfold keys in Hnd.
    rewrite fmap_app, fmap_cons, (key_at_lookup _ _ _ Hn) in Hnd.
    apply NoDup_app in Hnd as (_ & Hd & _). intros Hin. apply (Hd _ Hin). left.
  - pose proof (wf_absent _ _ _ Hwf Hlk) as Hab.
    rewrite keys_entries in Hab. apply assoc_None in Hab. rewrite Hab.
    unfold value_of. by rewrite Hlk.
Qed.

Lemma holds_init c : holds c (init c) [].
Proof. exists []. split_and!; try done. apply (inv_wf c []), inv_init. Qed.

Lemma holds_length c m s : holds c m s → len m = length s.
Proof.
  intros (l & Hwf & _ & <-). unfold len, entries.
  by rewrite (wf_size _ _ Hwf), length_fmap.
Qed.

Lemma holds_stored c m s : holds c m s → stored m = list_to_set s.*1.
Proof.
  intros (l & Hwf & _ & <-). by rewrite (wf_stored _ _ Hwf), <-keys_entries.
Qed.

Lemma holds_value_of c m s k : holds c m s → value_of m k = assoc k s.
Proof. intros (l & Hwf & _ & <-). by apply value_of_assoc. Qed.

Lemma holds_NoDup c m s : holds c m s → NoDup s.*1.
Proof.
  intros (l & Hwf & _ & <-). rewrite <-keys_entries. apply (wf_keys _ _ Hwf).
Qed.

Lemma holds_split m l1 a l2 n :
  wf m (l1 ++ a :: l2) → heap m !! a = Some n →
  let pl := payload (heap m) in
  entries pl (l1 ++ a :: l2) = entries pl l1 ++ (Key n, Value n) :: entries pl l2
  ∧ (Key n ∉ (entries pl l1).*1) ∧ (Key n ∉ (entries pl l2).*1).
Proof.
  intros Hwf Hn pl. subst pl. split.
  - rewrite entries_app.
    change (entries ?pl (a :: ?l)) with (entry_at pl a :: entries pl l).
    by rewrite (entry_at_lookup _ _ _ Hn).
  - destruct (keys_NoDup_middle _ _ _ _ (wf_keys _ _ Hwf)) as [Hni _].
    rewrite (key_at_lookup _ _ _ Hn), keys_app, !keys_entries in Hni.
    set_solver.
Qed.

Lemma holds_Get c m s k :
  holds c m s →
  ∃ m', Get k m = Some ((list_Get k s).1, m') ∧ holds c m' (list_Get k s).2.
Proof.
  intros (l & Hwf & Hc & <-). unfold list_Get.
  rewrite <-(value_of_assoc _ _ k Hwf).
  destruct (nodeMap (this m) !! k) as [p|] eqn:Hlk.
  - destruct (wf_lookup_inv _ _ _ _ Hwf Hlk) as (l1 & a & l2 & n & -> & -> & Hn & <-).
    rewrite (value_of_node _ _ a n Hwf); [|set_solver|done].
    destruct (Get_hit _ _ _ _ _ Hwf Hn) as (m' & HG & Hwf' & Hpl & Hc' & _).
    destruct (holds_split _ _ _ _ _ Hwf Hn) as (He & H1 & H2).
    exists m'. split; [done|]. exists (a :: l1 ++ l2). split_and!; try done.
    + congruence.
    + cbn [fst snd]. rewrite He, without_middle by done.
      change (entries ?pl (a :: ?l)) with (entry_at pl a :: entries pl l).
      rewrite Hpl. by rewrite (entry_at_lookup _ _ _ Hn), entries_app.
  - exists m. rewrite (Get_miss _ _ Hlk). unfold value_of. rewrite Hlk.
    split; [done|]. by exists l.
Qed.

Lemma holds_Put c m s k v :
  holds c m s →
  ∃ m', Put k v m = Some (tt, m') ∧ holds c m' (list_Put c k v s).
Proof.
  intros (l & Hwf & <- & <-). unfold list_Put.
  rewrite <-(value_of_assoc _ _ k Hwf).
  destruct (nodeMap (this m) !! k) as [p|] eqn:Hlk.
  - destruct (wf_lookup_inv _ _ _ _ Hwf Hlk) as (l1 & a & l2 & n & -> & -> & Hn & <-).
    rewrite (value_of_node _ _ a n Hwf); [|set_solver|done].
    destruct (Put_hit _ _ _ _ _ v Hwf Hn) as (m' & HP & Hwf' & Hpl & Hc' & _).
    destruct (holds_split _ _ _ _ _ Hwf Hn) as (He & H1 & H2).
    pose proof (locs_NoDup_middle _ _ _ _ (wf_keys _ _ Hwf)) as Hal.
    exists m'. split; [done|]. exists (a :: l1 ++ l2). split_and!; try done.
    rewrite He, without_middle by done.
    change (entries ?pl (a :: ?l)) with (entry_at pl a :: entries pl l).
    rewrite Hpl. unfold entry_at at 1. rewrite lookup_insert_eq. simpl.
    by rewrite entries_insert_notin, entries_app.
  - destruct (Put_miss _ _ _ v Hwf Hlk) as (a & m' & HP & Hwf' & Hfr & Hpl & Hc').
    unfold value_of. rewrite Hlk.
    exists m'. split; [done|]. eexists. split_and!; [done|done|].
    change (entries ?pl (a :: ?l)) with (entry_at pl a :: entries pl l).
    rewrite Hpl. unfold entry_at at 1. rewrite lookup_insert_eq. simpl.
    f_equal. rewrite length_entries.
    assert (∀ l0, l0 `sublist_of` l → a ∉ l0) as Hal.
    { intros l0 Hsub Hin%(sublist_subseteq _ _ Hsub).
      destruct (wf_locs_allocated _ _ _ Hwf Hin) as [? ?]. congruence. }
    case_decide.
    + rewrite entries_insert_notin by apply Hal, sublist_removelast.
      apply fmap_removelast.
    + by rewrite entries_insert_notin by by apply Hal.
Qed.

Lemma holds_call c m s o :
  holds c m s →
  ∃ m', call o m = Some ((list_call c o s).1, m') ∧ holds c m' (list_call c o s).2.
Proof.
  intros Hh. destruct o as [k|k v]; simpl.
  - destruct (holds_Get _ _ _ k Hh) as (m' & HG & Hh').
    exists m'. rewrite (run_bind _ _ _ _ _ HG).
    by destruct (list_Get k s).
  - destruct (holds_Put _ _ _ k v Hh) as (m' & HP & Hh').
    exists m'. by rewrite (run_bind _ _ _ _ _ HP).
Qed.

Lemma holds_run c m s os :
  holds c m s →
  ∃ m', run os m = Some ((list_run c os s).1, m') ∧ holds c m' (list_run c os s).2.
Proof.
  revert m s. induction os as [|o os IH]; intros m s Hh; simpl.
  - by exists m.
  - destruct (holds_call _ _ _ o Hh) as (m1 & Hc & Hh1).
    destruct (IH _ _ Hh1) as (m2 & Hr & Hh2).
    exists m2. rewrite (run_bind _ _ _ _ _ Hc), (run_bind _ _ _ _ _ Hr).
    destruct (list_call c o s) as [r s1]. simpl in *.
    by destruct (list_run c os s1).
Qed.

(** Every script run on a fresh cache returns what it returns on the
    plain list, and leaves a structure that holds that list. *)
Lemma run_refines_list (c : Z) (os : list op) :
  ∃ m, run os (init c) = Some ((list_run c os []).1, m)
       ∧ holds c m (list_run c os []).2.
Proof. apply holds_run, holds_init. Qed.

Lemma exec_holds c os m :
  exec os (init c) = Some m → holds c m (list_run c os []).2.
Proof.
  destruct (run_refines_list c os) as (m' & Hr & Hh).
  unfold exec. rewrite Hr. by intros [= <-].
Qed.

Lemma run_app os1 os2 m :
  run (os1 ++ os2) m =
  match run os1 m with
  | Some (rs1, m1) =>
      match run os2 m1 with
      | Some (rs2, m2) => Some (rs1 ++ rs2, m2)
      | None => None
      end
  | None => None
  end.
Proof.
  revert m. induction os1 as [|o os1 IH]; intros m; simpl.
  - unfold mret, M_ret. by destruct (run os2 m) as [[??]|].
  - unfold mbind, M_bind. destruct (call o m) as [[r m1]|]; [|done].
    rewrite IH. destruct (run os1 m1) as [[rs1 m2]|]; [|done].
    unfold mret, M_ret. by destruct (run os2 m2) as [[rs2 m3]|].
Qed.

Lemma exec_snoc_Put c os m k v m' :
  exec os (init c) = Some m → Put k v m = Some (tt, m') →
  exec (os ++ [OPut k v]) (init c) = Some m'.
Proof.
  unfold exec. rewrite run_app.
  destruct (run os (init c)) as [[rs m0]|]; [|done]. intros [= ->] HP.
  cbn [run call]. unfold mbind, M_bind. by rewrite HP.
Qed.

Lemma exec_snoc_Get c os m k r m' :
  exec os (init c) = Some m → Get k m = Some (r, m') →
  exec (os ++ [OGet k]) (init c) = Some m'.
Proof.
  unfold exec. rewrite run_app.
  destruct (run os (init c)) as [[rs m0]|]; [|done]. intros [= ->] HG.
  cbn [run call]. unfold mbind, M_bind. by rewrite HG.
Qed.

(** ** [removeLast] on its own *)




(** X3. On a cache reached by any script and holding no key,
    [removeLast] does nothing: it returns without touching the cache. *)
Theorem removeLast_empty (c : Z) (os : list op) (m : mem) :
  exec os (init c) = Some m → len m = 0%nat → removeLast m = Some (tt, m).
Proof.
  intros Hm Hlen. destruct (exec_inv _ _ _ Hm) as [l [Hwf _ _ _]].
  unfold len in Hlen. rewrite (wf_size _ _ Hwf) in Hlen.
  destruct l; [|done]. by apply removeLast_nil.
Qed.

Lemma removeLast_empty_witness :
  (exec [OGet (AInt 4)] (init 3) = Some (init 3) ∧ len (init 3) = 0%nat)
  ∧ removeLast (init 3) = Some (tt, init 3).
Proof.
  assert (exec [OGet (AInt 4)] (init 3) = Some (init 3)) as H1
    by (vm_compute; reflexivity).
  assert (len (init 3) = 0%nat) as H2 by (vm_compute; reflexivity).
  split; [by split|].
  exact (removeLast_empty 3 _ (init 3) H1 H2).
Defined.



(** ** What a [Put] changes *)


Lemma elem_of_without_keys k k' s :
  k' ∈ (without k s).*1 ↔ k' ∈ s.*1 ∧ k' ≠ k.
Proof.
  unfold without. rewrite !list_elem_of_fmap. split.
  - intros ([k0 v0] & -> & [Hne Hin]%list_elem_of_filter). simpl in *.
    split; [|done]. by exists (k0, v0).
  - intros [([k0 v0] & -> & Hin) Hne]. exists (k0, v0). split; [done|].
    by apply list_elem_of_filter.
Qed.

Lemma holds_absent c m s k : holds c m s → k ∉ stored m → assoc k s = None.
Proof.
  intros Hh Hk. rewrite <-(holds_value_of _ _ _ k Hh).
  apply not_stored_lookup in Hk. unfold value_of. by rewrite Hk.
Qed.

Lemma holds_stored_elem c m s k : holds c m s → k ∈ stored m ↔ k ∈ s.*1.
Proof. intros Hh. rewrite (holds_stored _ _ _ Hh). apply elem_of_list_to_set. Qed.

(** X5. On a cache reached by any script, a [Put] of a key that is not
    stored, made while fewer than [cap] keys are stored, evicts nothing: the
    key is added with its value, the number of keys grows by one and every
    other key keeps its value. *)
Theorem Put_below_capacity (c : Z) (os : list op) (m : mem) (k v : any) :
  exec os (init c) = Some m → k ∉ stored m → Z.of_nat (len m) < c →
  ∃ m', Put k v m = Some (tt, m')
    ∧ stored m' = {[k]} ∪ stored m ∧ len m' = S (len m)
    ∧ value_of m' k = Some v
    ∧ ∀ k', k' ≠ k → value_of m' k' = value_of m k'.
Proof.
  intros Hm Hk Hlen. pose proof (exec_holds _ _ _ Hm) as Hh.
  set (s := (list_run c os []).2) in *.
  destruct (holds_Put _ _ _ k v Hh) as (m' & HP & Hh').
  unfold list_Put in Hh'. rewrite (holds_absent _ _ _ _ Hh Hk) in Hh'.
  rewrite (holds_length _ _ _ Hh) in Hlen. rewrite decide_False in Hh' by lia.
  exists m'. split_and!; try done.
  - rewrite (holds_stored _ _ _ Hh'), (holds_stored _ _ _ Hh). set_solver.
  - by rewrite (holds_length _ _ _ Hh'), (holds_length _ _ _ Hh).
  - rewrite (holds_value_of _ _ _ _ Hh'). simpl. by rewrite decide_True.
  - intros k' Hne.
    rewrite (holds_value_of _ _ _ _ Hh'), (holds_value_of _ _ _ _ Hh).
    simpl. by rewrite decide_False.
Qed.

Lemma Put_below_capacity_witness :
  let os := [OPut (AInt 1) (AInt 10)] in
  let m := after 2 os in
  (exec os (init 2) = Some m ∧ AInt 2 ∉ stored m ∧ Z.of_nat (len m) < 2)
  ∧ ∃ m', Put (AInt 2) (AInt 20) m = Some (tt, m')
    ∧ stored m' = {[AInt 2]} ∪ stored m ∧ len m' = S (len m)
    ∧ value_of m' (AInt 2) = Some (AInt 20)
    ∧ ∀ k', k' ≠ AInt 2 → value_of m' k' = value_of m k'.
Proof.
  intros os m.
  assert (exec os (init 2) = Some m) as H1 by (vm_compute; reflexivity).
  assert (AInt 2 ∉ stored m) as H2 by (vm_compute; discriminate).
  assert (Z.of_nat (len m) < 2) as H3 by (vm_compute; reflexivity).
  split; [by split_and!|].
  exact (Put_below_capacity 2 os m (AInt 2) (AInt 20) H1 H2 H3).
Defined.



(** ** Small and large capacities *)




Lemma list_Put_keeps_head c k v t k' v' :
  2 ≤ c → k ≠ k' →
  assoc k (list_Put c k' v' ((k, v) :: t)) = Some v.
Proof.
  intros Hc Hne. unfold list_Put. cbn [assoc]. rewrite decide_False by done.
  destruct (assoc k' t) as [v0|].
  - unfold without. rewrite filter_cons_True by done.
    cbn [assoc]. rewrite decide_False by done. by rewrite decide_True.
  - cbn [assoc]. rewrite decide_False by done.
    case_decide as Hfull; [|cbn [assoc]; by rewrite decide_True].
    destruct (list_nil_or_snoc t) as [->|(t0 & x & ->)]; [simpl in *; lia|].
    rewrite app_comm_cons, removelast_last. cbn [assoc]. by rewrite decide_True.
Qed.

(** X8. With a capacity of at least two, a [Put] is not undone by the
    next [Put] of another key: after [Put(k, v)] then [Put(k', v')] with
    [k'] different from [k], both keys are stored with the values given. *)
Theorem Put_survives_next_Put (c : Z) (os : list op) (m : mem) (k v k' v' : any) :
  2 ≤ c → exec os (init c) = Some m → k ≠ k' →
  ∃ m1 m2, Put k v m = Some (tt, m1) ∧ Put k' v' m1 = Some (tt, m2)
    ∧ value_of m2 k = Some v ∧ value_of m2 k' = Some v'.
Proof.
  intros Hc Hm Hne. pose proof (exec_holds _ _ _ Hm) as Hh.
  set (s := (list_run c os []).2) in *.
  destruct (holds_Put _ _ _ k v Hh) as (m1 & HP1 & Hh1).
  destruct (holds_Put _ _ _ k' v' Hh1) as (m2 & HP2 & Hh2).
  exists m1, m2. split_and!; try done.
  - rewrite (holds_value_of _ _ _ _ Hh2).
    assert (∃ t, list_Put c k v s = (k, v) :: t) as [t ->].
    { unfold list_Put. destruct (assoc k s); eauto. }
    by apply list_Put_keeps_head.
  - rewrite (holds_value_of _ _ _ _ Hh2). unfold list_Put at 1.
    destruct (assoc k' (list_Put c k v s)); cbn [assoc]; by rewrite decide_True.
Qed.

Lemma Put_survives_next_Put_witness :
  let os := [OPut (AInt 1) (AInt 10); OPut (AInt 2) (AInt 20)] in
  let m := after 2 os in
  (2 ≤ 2 ∧ exec os (init 2) = Some m ∧ AInt 3 ≠ AInt 4)
  ∧ ∃ m1 m2, Put (AInt 3) (AInt 30) m = Some (tt, m1)
    ∧ Put (AInt 4) (AInt 40) m1 = Some (tt, m2)
    ∧ value_of m2 (AInt 3) = Some (AInt 30)
    ∧ value_of m2 (AInt 4) = Some (AInt 40).
Proof.
  intros os m.
  assert (2 ≤ 2) as H0 by lia.
  assert (exec os (init 2) = Some m) as H1 by (vm_compute; reflexivity).
  assert (AInt 3 ≠ AInt 4) as H2 by discriminate.
  split; [by split_and!|].
  exact (Put_survives_next_Put 2 os m (AInt 3) (AInt 30) (AInt 4) (AInt 40)
           H0 H1 H2).
Defined.

(** X9. With a capacity of at least two, a key that was just read is not
    evicted by the next [Put]: after a [Get] of a stored key [k] and a
    [Put(k', v')] with [k'] different from [k], the key [k] is still stored
    with the value the [Get] returned. *)
Theorem Get_protects_from_next_Put (c : Z) (os : list op) (m : mem) (k k' v' : any) :
  2 ≤ c → exec os (init c) = Some m → k ∈ stored m → k ≠ k' →
  ∃ r m1 m2, Get k m = Some (r, m1) ∧ Put k' v' m1 = Some (tt, m2)
    ∧ value_of m k = Some r ∧ value_of m2 k = Some r.
Proof.
  intros Hc Hm Hk Hne. pose proof (exec_holds _ _ _ Hm) as Hh.
  set (s := (list_run c os []).2) in *.
  destruct (holds_Get _ _ _ k Hh) as (m1 & HG & Hh1).
  destruct (holds_Put _ _ _ k' v' Hh1) as (m2 & HP & Hh2).
  apply (holds_stored_elem _ _ _ _ Hh) in Hk.
  unfold list_Get in *. destruct (assoc k s) as [r|] eqn:Hr.
  2:{ apply assoc_None in Hr. done. }
  simpl in *. exists r, m1, m2. split_and!; try done.
  - by rewrite (holds_value_of _ _ _ _ Hh).
  - rewrite (holds_value_of _ _ _ _ Hh2). by apply list_Put_keeps_head.
Qed.

Lemma Get_protects_from_next_Put_witness :
  let os := [OPut (AInt 1) (AInt 10); OPut (AInt 2) (AInt 20)] in
  let m := after 2 os in
  (2 ≤ 2 ∧ exec os (init 2) = Some m ∧ AInt 1 ∈ stored m ∧ AInt 1 ≠ AInt 3)
  ∧ ∃ r m1 m2, Get (AInt 1) m = Some (r, m1)
    ∧ Put (AInt 3) (AInt 30) m1 = Some (tt, m2)
    ∧ value_of m (AInt 1) = Some r ∧ value_of m2 (AInt 1) = Some r.
Proof.
  intros os m.
  assert (2 ≤ 2) as H0 by lia.
  assert (exec os (init 2) = Some m) as H1 by (vm_compute; reflexivity).
  assert (AInt 1 ∈ stored m) as H2.
  { apply stored_lookup. vm_compute. eexists. reflexivity. }
  assert (AInt 1 ≠ AInt 3) as H3 by discriminate.
  split; [by split_and!|].
  exact (Get_protects_from_next_Put 2 os m (AInt 1) (AInt 3) (AInt 30)
           H0 H1 H2 H3).
Defined.

(** ** Caches that store no nil *)

Lemma Forall_sublist_of {A} (P : A → Prop) (l' l : list A) :
  l' `sublist_of` l → Forall P l → Forall P l'.
Proof.
  intros Hsub. rewrite !Forall_forall. intros H x Hx. apply H.
  by apply (sublist_subseteq _ _ Hsub).
Qed.

Lemma list_Get_no_nil k s :
  Forall (λ e, e.2 ≠ ANil) s → Forall (λ e, e.2 ≠ ANil) (list_Get k s).2.
Proof.
  intros Hs. unfold list_Get. destruct (assoc k s) as [v|] eqn:Hk; [|done].
  simpl. apply Forall_cons. split.
  - apply assoc_Some_elem in Hk. rewrite Forall_forall in Hs. by apply (Hs _ Hk).
  - eapply Forall_sublist_of; [|done]. apply sublist_filter.
Qed.

Lemma list_Put_no_nil c k v s :
  v ≠ ANil →
  Forall (λ e, e.2 ≠ ANil) s → Forall (λ e, e.2 ≠ ANil) (list_Put c k v s).
Proof.
  intros Hv Hs. unfold list_Put. destruct (assoc k s).
  - apply Forall_cons. split; [done|].
    eapply Forall_sublist_of; [|done]. apply sublist_filter.
  - apply Forall_cons. split; [done|]. case_decide; [|done].
    eapply Forall_sublist_of; [|done]. apply sublist_removelast.
Qed.


(** [Get] on a cache that stores no nil: the result is nil exactly on a
    miss. *)
Lemma Get_no_nil c m s k :
  holds c m s → Forall (λ e, e.2 ≠ ANil) s →
  ∃ r m', Get k m = Some (r, m') ∧ (r = ANil ↔ k ∉ stored m)
          ∧ holds c m' (list_Get k s).2.
Proof.
  intros Hh Hs. destruct (holds_Get _ _ _ k Hh) as (m' & HG & Hh').
  exists (list_Get k s).1, m'. split_and!; try done.
  rewrite (holds_stored_elem _ _ _ k Hh), <-assoc_None.
  unfold list_Get. destruct (assoc k s) as [v|] eqn:Hk; simpl; [|done].
  apply assoc_Some_elem in Hk. rewrite Forall_forall in Hs.
  specialize (Hs _ Hk). simpl in Hs. split; [done|]. intros H. discriminate H.
Qed.



(** ** The driver *)

Lemma driver_step_ok c m s r :
  holds c m s → Forall (λ e, e.2 ≠ ANil) s → r ≠ [] →
  ∃ ln m' s', driver_step r m = Some (ln, m')
    ∧ holds c m' s' ∧ Forall (λ e, e.2 ≠ ANil) s'.
Proof.
  intros Hh Hs Hr. destruct r as [|k [|v r]]; [done| |].
  - destruct (holds_Get _ _ _ (AInt k) Hh) as (m' & HG & Hh').
    eexists _, m', _. split_and!; [|done|by apply list_Get_no_nil].
    unfold driver_step. by rewrite (run_bind _ _ _ _ _ HG).
  - destruct (holds_Put _ _ _ (AInt k) (AInt v) Hh) as (m' & HP & Hh').
    eexists _, m', _. split_and!; [|done|by apply list_Put_no_nil].
    unfold driver_step. by rewrite (run_bind _ _ _ _ _ HP).
Qed.

Lemma driver_ok c m s rows :
  holds c m s → Forall (λ e, e.2 ≠ ANil) s → Forall (λ r, r ≠ []) rows →
  ∃ lns m' s', driver rows m = Some (lns, m') ∧ length lns = length rows
    ∧ holds c m' s' ∧ Forall (λ e, e.2 ≠ ANil) s'.
Proof.
  revert m s. induction rows as [|r rows IH]; intros m s Hh Hs Hrows.
  - by exists [], m, s.
  - apply Forall_cons in Hrows as [Hr Hrows].
    destruct (driver_step_ok _ _ _ r Hh Hs Hr) as (ln & m1 & s1 & Hst & Hh1 & Hs1).
    destruct (IH _ _ Hh1 Hs1 Hrows) as (lns & m2 & s2 & Hd & Hlen & Hh2 & Hs2).
    exists (ln :: lns), m2, s2. split_and!; try done.
    + simpl. by rewrite (run_bind _ _ _ _ _ Hst), (run_bind _ _ _ _ _ Hd).
    + simpl. by rewrite Hlen.
Qed.

Lemma driver_Some_inv c m s rows lns m' :
  holds c m s → Forall (λ e, e.2 ≠ ANil) s →
  driver rows m = Some (lns, m') →
  Forall (λ r, r ≠ []) rows ∧ length lns = length rows
  ∧ ∃ s', holds c m' s' ∧ Forall (λ e, e.2 ≠ ANil) s'.
Proof.
  revert m s lns. induction rows as [|r rows IH]; intros m s lns Hh Hs Hd.
  - injection Hd as <- <-. split_and!; [done|done|by exists s].
  - destruct (decide (r = [])) as [->|Hr]; [done|].
    destruct (driver_step_ok _ _ _ r Hh Hs Hr) as (ln & m1 & s1 & Hst & Hh1 & Hs1).
    simpl in Hd. rewrite (run_bind _ _ _ _ _ Hst) in Hd.
    unfold mbind, M_bind in Hd.
    destruct (driver rows m1) as [[lns1 m2]|] eqn:Hd1; [|done].
    injection Hd as <- <-.
    destruct (IH _ _ _ Hh1 Hs1 Hd1) as (Hrows & Hlen & Hq).
    split_and!; [by apply Forall_cons|simpl; by rewrite Hlen|done].
Qed.

(** X11. The driver's loop, run on a fresh cache of any capacity, goes
    through all its rows without panic exactly when no row is empty, and
    then prints one line per row. *)
Theorem driver_runs_iff_rows_nonempty (c : Z) (rows : list (list Z)) :
  (is_Some (driver rows (init c)) ↔ Forall (λ r, r ≠ []) rows)
  ∧ ∀ lns m, driver rows (init c) = Some (lns, m) → length lns = length rows.
Proof.
  split; [split|].
  - intros [[lns m] Hd].
    by destruct (driver_Some_inv _ _ _ _ _ _ (holds_init c) (Forall_nil_2 _) Hd).
  - intros Hrows.
    destruct (driver_ok c _ _ rows (holds_init c) (Forall_nil_2 _) Hrows)
      as (lns & m & s & Hd & _). eauto.
  - intros lns m Hd.
    by destruct (driver_Some_inv _ _ _ _ _ _ (holds_init c) (Forall_nil_2 _) Hd)
      as (_ & ? & _).
Qed.

(** X12. After the driver has gone through any rows, a row [[k]] prints
    ["miss!"] exactly when key [k] is not stored: the driver only stores
    integers, so a nil result always is a miss. *)
Theorem driver_miss_is_exact (c : Z) (rows : list (list Z)) (lns : list line)
    (m : mem) (k : Z) :
  driver rows (init c) = Some (lns, m) →
  ∃ r m', driver_step [k] m
          = Some (LGet k r (bool_decide (AInt k ∉ stored m)), m')
          ∧ Get (AInt k) m = Some (r, m')
          ∧ (r = ANil ↔ AInt k ∉ stored m).
Proof.
  intros Hd.
  destruct (driver_Some_inv _ _ _ _ _ _ (holds_init c) (Forall_nil_2 _) Hd)
    as (_ & _ & s & Hh & Hs).
  destruct (Get_no_nil _ _ _ (AInt k) Hh Hs) as (r & m' & HG & Hr & _).
  exists r, m'. split_and!; try done.
  unfold driver_step. rewrite (run_bind _ _ _ _ _ HG).
  unfold mret, M_ret. do 3 f_equal.
  destruct r; simpl; symmetry.
  - apply bool_decide_eq_true. by apply Hr.
  - apply bool_decide_eq_false. rewrite <-Hr. discriminate.
  - apply bool_decide_eq_false. rewrite <-Hr. discriminate.
  - apply bool_decide_eq_false. rewrite <-Hr. discriminate.
Qed.

Lemma driver_miss_is_exact_witness :
  let rows := [[10; 13]; [3; 17]; [13]] in
  let m := after 10 [OPut (AInt 10) (AInt 13); OPut (AInt 3) (AInt 17);
                     OGet (AInt 13)] in
  driver rows (init 10)
  = Some ([LPut 10 13; LPut 3 17; LGet 13 ANil true], m)
  ∧ ∃ r m', driver_step [3] m
            = Some (LGet 3 r (bool_decide (AInt 3 ∉ stored m)), m')
            ∧ Get (AInt 3) m = Some (r, m')
            ∧ (r = ANil ↔ AInt 3 ∉ stored m).
Proof.
  intros rows m.
  assert (driver rows (init 10)
          = Some ([LPut 10 13; LPut 3 17; LGet 13 ANil true], m)) as H1
    by (vm_compute; reflexivity).
  split; [done|].
  exact (driver_miss_is_exact 10 rows _ m 3 H1).
Defined.

(** [main] prints its fifty lines; the [Get] rows that miss are those for
    the keys 13, 8, 11, 7, 8, 8, 13 and 8, in this order. *)
Example main_output :
  (λ lns, (length lns,
           omap (λ ln, match ln with
                       | LGet k _ true => Some k
                       | _ => None
                       end) lns)) <$> main
  = Some (50%nat, [13; 8; 11; 7; 8; 8; 13; 8]).
Proof. vm_compute. reflexivity. Qed.

(** ** The list against the script *)

Lemma holds_walk c m s :
  holds c m s →
  entries (payload (heap m)) (walk_next (heap m) (S (len m)) (head (this m))) = s.
Proof.
  intros (l & Hwf & _ & <-). unfold len.
  rewrite (wf_size _ _ Hwf), (wf_head _ _ Hwf).
  by rewrite (walk_next_seg _ None l) by (try apply (wf_seg _ _ Hwf); lia).
Qed.


Lemma ordered_lookup os ks i j ki kj :
  ordered os ks → ks !! i = Some ki → ks !! j = Some kj → (i < j)%nat →
  (stamp os kj < stamp os ki)%nat ∧ (0 < stamp os kj)%nat.
Proof.
  revert i j. induction ks as [|k ks IH]; intros i j; [done|].
  intros (Hpos & Hall & Hord) Hi Hj Hlt.
  destruct j as [|j]; [lia|]. simpl in Hj.
  assert (kj ∈ ks) as Hin by by eapply list_elem_of_lookup_2.
  destruct i as [|i].
  - injection Hi as <-. rewrite Forall_forall in Hall.
    split; [by apply Hall|by eapply ordered_pos].
  - simpl in Hi. apply (IH i j); [done..|lia].
Qed.

(** X13. On a cache reached by the script [os], the keys of the nodes
    walked from [head] come in strict recency order: each was last touched,
    by a [Get] or a [Put] of [os], strictly later than every key after it. *)
Theorem list_in_recency_order (c : Z) (os : list op) (m : mem)
    (i j : nat) (ki kj : any) :
  exec os (init c) = Some m →
  let ks := keys (payload (heap m))
                 (walk_next (heap m) (S (len m)) (head (this m))) in
  ks !! i = Some ki → ks !! j = Some kj → (i < j)%nat →
  ∃ ti tj, last_touch os ki = Some ti ∧ last_touch os kj = Some tj
           ∧ (tj < ti)%nat.
Proof.
  intros Hm. destruct (exec_inv _ _ _ Hm) as [l [Hwf _ _ Hord]].
  unfold len. rewrite (wf_size _ _ Hwf), (wf_head _ _ Hwf).
  rewrite (walk_next_seg _ None l) by (try apply (wf_seg _ _ Hwf); lia).
  cbn zeta. intros Hi Hj Hlt.
  destruct (ordered_lookup _ _ _ _ _ _ Hord Hi Hj Hlt) as [Hs Hp].
  destruct (stamp_pos_last_touch os kj Hp) as (tj & Htj & Hsj).
  destruct (stamp_pos_last_touch os ki) as (ti & Hti & Hsi); [lia|].
  exists ti, tj. split_and!; [done|done|lia].
Qed.

Lemma list_in_recency_order_witness :
  let os := [OPut (AInt 1) (AInt 1); OPut (AInt 2) (AInt 2); OGet (AInt 1)] in
  let m := after 2 os in
  let ks := keys (payload (heap m))
                 (walk_next (heap m) (S (len m)) (head (this m))) in
  (exec os (init 2) = Some m
   ∧ ks !! 0%nat = Some (AInt 1) ∧ ks !! 1%nat = Some (AInt 2) ∧ (0 < 1)%nat)
  ∧ ∃ ti tj, last_touch os (AInt 1) = Some ti ∧ last_touch os (AInt 2) = Some tj
             ∧ (tj < ti)%nat.
Proof.
  intros os m ks.
  assert (exec os (init 2) = Some m) as H1 by (vm_compute; reflexivity).
  assert (ks !! 0%nat = Some (AInt 1)) as H2 by (vm_compute; reflexivity).
  assert (ks !! 1%nat = Some (AInt 2)) as H3 by (vm_compute; reflexivity).
  assert (0 < 1)%nat as H4 by lia.
  split; [by split_and!|].
  exact (list_in_recency_order 2 os m 0 1 (AInt 1) (AInt 2) H1 H2 H3 H4).
Defined.



(** X15. On a cache reached by any script, reading a stored key twice in
    a row changes nothing the second time: both reads return the same
    value, and the pairs walked from [head] are the same, in the same order,
    after the second read as after the first. *)
Theorem Get_twice (c : Z) (os : list op) (m : mem) (k : any) :
  exec os (init c) = Some m → k ∈ stored m →
  ∃ r m1 m2, Get k m = Some (r, m1) ∧ Get k m1 = Some (r, m2)
    ∧ entries (payload (heap m2))
              (walk_next (heap m2) (S (len m2)) (head (this m2)))
      = entries (payload (heap m1))
                (walk_next (heap m1) (S (len m1)) (head (this m1)))
    ∧ stored m2 = stored m1.
Proof.
  intros Hm Hk. pose proof (exec_holds _ _ _ Hm) as Hh.
  set (s := (list_run c os []).2) in *.
  pose proof (holds_NoDup _ _ _ Hh) as Hnd.
  destruct (holds_Get _ _ _ k Hh) as (m1 & HG1 & Hh1).
  apply (holds_stored_elem _ _ _ _ Hh) in Hk.
  unfold list_Get in HG1, Hh1. destruct (assoc k s) as [r|] eqn:Hr.
  2:{ apply assoc_None in Hr. done. }
  cbn [fst snd] in HG1, Hh1.
  destruct (holds_Get _ _ _ k Hh1) as (m2 & HG2 & Hh2).
  assert (list_Get k ((k, r) :: without k s) = (r, (k, r) :: without k s)) as Hg.
  { unfold list_Get. cbn [assoc]. rewrite decide_True by done. f_equal. f_equal.
    unfold without. rewrite filter_cons_False by (simpl; intros H; by apply H).
    fold (without k s). apply without_notin.
    rewrite elem_of_without_keys. by intros [_ ?]. }
  rewrite Hg in HG2, Hh2. cbn [fst snd] in HG2, Hh2.
  exists r, m1, m2. split_and!; try done.
  - by rewrite (holds_walk _ _ _ Hh1), (holds_walk _ _ _ Hh2).
  - by rewrite (holds_stored _ _ _ Hh1), (holds_stored _ _ _ Hh2).
Qed.

Lemma Get_twice_witness :
  let os := [OPut (AInt 1) (AInt 1); OPut (AInt 2) (AInt 2)] in
  let m := after 2 os in
  (exec os (init 2) = Some m ∧ AInt 1 ∈ stored m)
  ∧ ∃ r m1 m2, Get (AInt 1) m = Some (r, m1) ∧ Get (AInt 1) m1 = Some (r, m2)
    ∧ entries (payload (heap m2))
              (walk_next (heap m2) (S (len m2)) (head (this m2)))
      = entries (payload (heap m1))
                (walk_next (heap m1) (S (len m1)) (head (this m1)))
    ∧ stored m2 = stored m1.
Proof.
  intros os m.
  assert (exec os (init 2) = Some m) as H1 by (vm_compute; reflexivity).
  assert (AInt 1 ∈ stored m) as H2.
  { apply stored_lookup. vm_compute. eexists. reflexivity. }
  split; [by split|].
  exact (Get_twice 2 os m (AInt 1) H1 H2).
Defined.

(** X16. On a cache reached by any script, after a [Get] of a stored key
    the node [head] points to has no predecessor, carries that key and the
    value returned, and is the node the index gives for the key. *)
Theorem Get_moves_to_head (c : Z) (os : list op) (m : mem) (k : any) :
  exec os (init c) = Some m → k ∈ stored m →
  ∃ r m' a n, Get k m = Some (r, m')
    ∧ head (this m') = Some a ∧ nodeMap (this m') !! k = Some (Some a)
    ∧ heap m' !! a = Some n ∧ Key n = k ∧ Value n = r ∧ Pre n = None.
Proof.
  intros Hm [p Hlk]%stored_lookup.
  destruct (exec_inv _ _ _ Hm) as [l [Hwf _ _ _]].
  destruct (wf_lookup_inv _ _ _ _ Hwf Hlk) as (l1 & a & l2 & n & -> & -> & Hn & <-).
  destruct (Get_hit _ _ _ _ _ Hwf Hn) as (m' & HG & Hwf' & Hpl & _ & _).
  destruct (wf_seg _ _ Hwf') as (n' & Hn' & Hpre & _).
  assert (Key n' = Key n ∧ Value n' = Value n) as [Hk Hv].
  { pose proof (payload_lookup _ _ _ Hn') as H1.
    rewrite Hpl, (payload_lookup _ _ _ Hn) in H1. by injection H1. }
  exists (Value n), m', a, n'. split_and!; try done.
  - by rewrite (wf_head _ _ Hwf').
  - rewrite <-Hk. eapply wf_lookup; [done|left|done].
Qed.

Lemma Get_moves_to_head_witness :
  let os := [OPut (AInt 1) (AInt 1); OPut (AInt 2) (AInt 2)] in
  let m := after 2 os in
  (exec os (init 2) = Some m ∧ AInt 1 ∈ stored m)
  ∧ ∃ r m' a n, Get (AInt 1) m = Some (r, m')
    ∧ head (this m') = Some a
    ∧ nodeMap (this m') !! AInt 1 = Some (Some a)
    ∧ heap m' !! a = Some n ∧ Key n = AInt 1 ∧ Value n = r ∧ Pre n = None.
Proof.
  intros os m.
  assert (exec os (init 2) = Some m) as H1 by (vm_compute; reflexivity).
  assert (AInt 1 ∈ stored m) as H2.
  { apply stored_lookup. vm_compute. eexists. reflexivity. }
  split; [by split|].
  exact (Get_moves_to_head 2 os m (AInt 1) H1 H2).
Defined.

(** X17. On a cache reached by any script, a [Put] of a key that is not
    stored allocates exactly one node, at a location no node had before,
    and makes it the head; every node allocated earlier keeps its key and
    its value. *)
Theorem Put_allocates_one_node (c : Z) (os : list op) (m : mem) (k v : any) :
  exec os (init c) = Some m → k ∉ stored m →
  ∃ m' a, Put k v m = Some (tt, m')
    ∧ (a ∉ dom (heap m)) ∧ dom (heap m') = {[a]} ∪ dom (heap m)
    ∧ head (this m') = Some a
    ∧ ∀ b n, heap m !! b = Some n →
        ∃ n', heap m' !! b = Some n' ∧ Key n' = Key n ∧ Value n' = Value n.
Proof.
  intros Hm Hk%not_stored_lookup.
  destruct (exec_inv _ _ _ Hm) as [l [Hwf _ _ _]].
  destruct (Put_miss _ _ _ v Hwf Hk) as (a & m' & HP & Hwf' & Hfr & Hpl & _).
  exists m', a. split_and!; try done.
  - by apply not_elem_of_dom.
  - apply (f_equal dom) in Hpl. unfold payload in Hpl.
    by rewrite dom_insert_L, !dom_fmap_L in Hpl.
  - by rewrite (wf_head _ _ Hwf').
  - intros b n Hb. assert (a ≠ b) as Hne by congruence.
    destruct (payload_lookup_inv (heap m') b (Key n) (Value n)) as (n' & ? & ? & ?).
    { rewrite Hpl, lookup_insert_ne by done. by apply payload_lookup. }
    eauto.
Qed.

Lemma Put_allocates_one_node_witness :
  let os := [OPut (AInt 1) (AInt 1); OPut (AInt 2) (AInt 2)] in
  let m := after 2 os in
  (exec os (init 2) = Some m ∧ AInt 3 ∉ stored m)
  ∧ ∃ m' a, Put (AInt 3) (AInt 3) m = Some (tt, m')
    ∧ (a ∉ dom (heap m)) ∧ dom (heap m') = {[a]} ∪ dom (heap m)
    ∧ head (this m') = Some a
    ∧ ∀ b n, heap m !! b = Some n →
        ∃ n', heap m' !! b = Some n' ∧ Key n' = Key n ∧ Value n' = Value n.
Proof.
  intros os m.
  assert (exec os (init 2) = Some m) as H1 by (vm_compute; reflexivity).
  assert (AInt 3 ∉ stored m) as H2 by (vm_compute; discriminate).
  split; [by split|].
  exact (Put_allocates_one_node 2 os m (AInt 3) (AInt 3) H1 H2).
Defined.
